(** * lcapy/schemlineqplacer.py: the linear-equation schematic placer

    A shallow embedding of [Constraint], [Constraints], [Lineq.add] and
    [Lineq.solve].

    - Sizes are Python numbers; they are modelled by the rationals [Q] and
      compared by value ([Qeq_bool], [Qltb]), as Python compares numbers.
      The float arithmetic of numpy and scipy is modelled exactly, without
      rounding.
    - A Python [dict] is an association list in insertion order: [solve]
      depends on the order in which [self.cnodes] and [self.constraints]
      are iterated.
    - Exceptions are an explicit [outcome].  [add] returns the object after
      the call next to the outcome, so that what a raised exception leaves
      behind can be stated; [solve] returns the warnings it emitted next
      to the outcome.
    - [scipy.linalg.lu], [scipy.linalg.inv] and the numpy operations are
      library code; they are modelled by what they compute, with the shapes
      they return and the exceptions they raise.
    - The bookkeeping at the end of [solve] ([self.W], [self.b], [self.U])
      and the printing under [debug] are not modelled. *)

From Stdlib Require Import String Bool Arith Lia ZArith QArith Qabs Lqa List.
Import ListNotations.

Set Implicit Arguments.

(** ** Hashable keys and insertion-ordered dictionaries *)

Class Hashable (A : Type) := key_eq_dec : forall a b : A, {a = b} + {a <> b}.

#[export] Instance Hashable_string : Hashable string := string_dec.
#[export] Instance Hashable_nat : Hashable nat := Nat.eq_dec.
#[export] Instance Hashable_unit : Hashable unit.
Proof. intros [] []. now left. Defined.

#[export] Instance Hashable_pair {A B} `{Hashable A} `{Hashable B} : Hashable (A * B).
Proof.
  intros [a b] [a' b'].
  destruct (key_eq_dec a a') as [->|Ha]; [|right; congruence].
  destruct (key_eq_dec b b') as [->|Hb]; [left; reflexivity|right; congruence].
Defined.

Module Dict.
Section Dict.
Context {K V : Type} `{Hashable K}.

Definition t := list (K * V).

(** [d[k]], [None] standing for [KeyError] *)
Fixpoint get (d : t) (k : K) : option V :=
  match d with
  | [] => None
  | (k', v) :: d' => if key_eq_dec k' k then Some v else get d' k
  end.

(** [k in d] *)
Definition mem (d : t) (k : K) : bool :=
  match get d k with Some _ => true | None => false end.

(** [d[k] = v]: an existing key keeps its place, a new one goes last *)
Fixpoint set (d : t) (k : K) (v : V) : t :=
  match d with
  | [] => [(k, v)]
  | (k', v') :: d' =>
      if key_eq_dec k' k then (k', v) :: d' else (k', v') :: set d' k v
  end.

Definition keys (d : t) : list K := map fst d.
End Dict.
Arguments t : clear implicits.
End Dict.

(** ** Python numbers *)

Definition Qltb (x y : Q) : bool := negb (Qle_bool y x).

(** ** Exceptions *)

Inductive outcome (E A : Type) : Type :=
| Returned (a : A)
| Raised (e : E).
Arguments Returned {E A} a.
Arguments Raised {E A} e.

Definition bind {E A B} (m : outcome E A) (f : A -> outcome E B) : outcome E B :=
match m with
| Returned a => f a
| Raised e => Raised e
end.

Notation "x <- m ;; k" := (bind m (fun x => k))
(at level 61, m at next level, right associativity).
Notation "' p <- m ;; k" := (bind m (fun x => match x with p => k end))
(at level 61, p pattern, m at next level, right associativity).

Definition of_option {E A} (e : E) (o : option A) : outcome E A :=
match o with
| Some a => Returned a
| None => Raised e
end.

(** ** class Constraint *)

Record Constraint : Type := mkConstraint { size : Q; stretch : bool }.

Section Placer.
Context {Node CNode Elt : Type} `{Hashable Node} `{Hashable CNode}.

(** What [add] stores in a key: [self.cnodes[n]] when [n in self.cnodes],
    the node itself otherwise. *)
Inductive Vertex : Type :=
| Raw (n : Node)
| Canon (c : CNode).

#[export] Instance Hashable_Vertex : Hashable Vertex.
Proof.
  intros [a|a] [b|b]; try (right; congruence).
  - destruct (key_eq_dec a b) as [->|Hn]; [left; reflexivity|right; congruence].
  - destruct (key_eq_dec a b) as [->|Hn]; [left; reflexivity|right; congruence].
Defined.

Definition Key : Type := (Vertex * Vertex)%type.

(** class Constraints(dict) *)
Definition Constraints : Type := Dict.t Key Constraint.

(** Modelled from the spec: the node-merging collaborator [Cnodes]
    ([lcapy/cnodes.py]) is not among the sources.  Of it the placer uses the
    membership test, the lookup of a node's canonical node and the
    iteration over the node -> canonical node pairs in a stable order,
    which is what this dictionary gives. *)
Definition Cnodes : Type := Dict.t Node CNode.

Inductive exn : Type :=
| IncompatibleFixed (incoming existing : Q)
    (* ValueError('Incompatible fixed constraint of size %s and %s') *)
| NoBasicVariable (c : CNode)
    (* ValueError('No basic variable for node %s') *)
| KeyError
| IndexError
| NegativeDimensions   (* numpy.zeros with a negative dimension *)
| NotSquare            (* scipy.linalg.inv on a matrix that is not square *)
| SingularMatrix       (* numpy.linalg.LinAlgError *)
| ShapeMismatch        (* numpy.dot on shapes that are not aligned *)
| EmptySequence.       (* numpy.min / numpy.max of an empty array *)

Definition result : Type -> Type := outcome exn.

(** class Lineq; [direction] and [debug] only drive the diagnostic
    printing at the end of [solve] and are left out. *)
Record Lineq : Type := mkLineq { cnodes : Cnodes; constraints : Constraints }.

Definition with_constraints (L : Lineq) (cs : Constraints) : Lineq :=
  mkLineq (cnodes L) cs.

(** lines 62-65: [if n in self.cnodes: n = self.cnodes[n]] *)
Definition canonical (L : Lineq) (n : Node) : Vertex :=
  match Dict.get (cnodes L) n with
  | Some c => Canon c
  | None => Raw n
  end.

(** lines 58-60: a negative size swaps the nodes *)
Definition orient (n1 n2 : Node) (sz : Q) : Node * Node * Q :=
  if Qltb sz 0 then (n2, n1, - sz) else (n1, n2, sz).

(** lines 67-68 and 73-75: the key the request is resolved against, and
    the size as seen from that key *)
Definition stored_key (L : Lineq) (n1 n2 : Vertex) (sz : Q) : Key * Q :=
  if Dict.mem (constraints L) (n2, n1) then ((n2, n1), - sz) else ((n1, n2), sz).

(** Lineq.add *)
Definition add (L : Lineq) (elt : Elt) (n1 n2 : Node) (sz : Q) (st : bool)
  : Lineq * result unit :=
  if Qeq_bool sz 0 then (L, Returned tt) else
  let '(n1, n2, sz) := orient n1 n2 sz in
  let n1 := canonical L n1 in
  let n2 := canonical L n2 in
  let key := (n1, n2) in
  let key2 := (n2, n1) in
  if negb (Dict.mem (constraints L) key) && negb (Dict.mem (constraints L) key2)
  then (with_constraints L (Dict.set (constraints L) key (mkConstraint sz st)),
        Returned tt)
  else
    let '(key, sz) := stored_key L n1 n2 sz in
    let constraint := mkConstraint sz st in
    match Dict.get (constraints L) key with
    | None => (L, Raised KeyError)
    | Some constraint2 =>
        if negb (stretch constraint2) then
          if negb (stretch constraint)
             && negb (Qeq_bool (size constraint2) (size constraint))
          then (L, Raised (IncompatibleFixed (size constraint) (size constraint2)))
          else (with_constraints L (Dict.set (constraints L) key constraint),
                Returned tt)
        else if Qltb (Qabs (size constraint2)) (Qabs (size constraint))
        then (with_constraints L (Dict.set (constraints L) key constraint),
              Returned tt)
        else (L, Returned tt)
    end.

(** ** numpy arrays

    A vector is a list, a matrix a list of rows.  Arithmetic results are kept
    in lowest terms ([Qred]), so that a number has one representation, as a
    float has. *)

Definition vector : Type := list Q.
Definition matrix : Type := list vector.

Definition zeros (n : nat) : vector := repeat 0%Q n.

(** [l[i] = v]; [None] is the [IndexError] of an index out of range *)
Fixpoint list_set {A} (l : list A) (i : nat) (v : A) : option (list A) :=
  match l, i with
  | [], _ => None
  | _ :: l', O => Some (v :: l')
  | x :: l', S i' => option_map (cons x) (list_set l' i' v)
  end.

(** [U[r, c]] *)
Definition entry (U : matrix) (r c : nat) : result Q :=
  row <- of_option IndexError (nth_error U r) ;;
  of_option IndexError (nth_error row c).

Definition col (j : nat) (row : vector) : Q := nth j row 0%Q.

(** [row - c * p] *)
Definition axpy (c : Q) (p row : vector) : vector :=
  map (fun xy => Qred (fst xy - c * snd xy)) (combine row p).

Definition scale (c : Q) (row : vector) : vector :=
  map (fun x => Qred (c * x)) row.

(** *** scipy.linalg.lu(W, permute_l=True)[1]

    The upper factor of the LU decomposition with partial pivoting that
    LAPACK's getrf computes, in exact arithmetic: in column [j] the pivot is
    the first entry of largest absolute value among the rows not yet used; it
    is swapped into place and eliminated from the rows below; a column with
    no non-zero entry left is skipped.  For an M x N matrix the factor has
    min(M, N) rows. *)

Fixpoint argmax_abs (j : nat) (rows : matrix) (i best : nat) (bestv : Q) : nat :=
  match rows with
  | [] => best
  | row :: rows' =>
      let v := Qabs (col j row) in
      if Qltb bestv v then argmax_abs j rows' (S i) i v
      else argmax_abs j rows' (S i) best bestv
  end.

Definition pivot_index (j : nat) (rows : matrix) : nat :=
  match rows with
  | [] => O
  | row :: rows' => argmax_abs j rows' 1 0 (Qabs (col j row))
  end.

Definition swap_head (p : nat) (rows : matrix) : matrix :=
  match rows, p with
  | r0 :: rest, S p' =>
      match nth_error rest p' with
      | Some rp => rp :: firstn p' rest ++ r0 :: skipn (S p') rest
      | None => rows
      end
  | _, _ => rows
  end.

Definition eliminate (j : nat) (piv row : vector) : vector :=
  axpy (Qred (col j row / col j piv)) piv row.

Fixpoint lu_upper (k j : nat) (rows : matrix) : matrix :=
  match k with
  | O => []
  | S k' =>
      match swap_head (pivot_index j rows) rows with
      | [] => []
      | piv :: rest =>
          if Qeq_bool (col j piv) 0 then piv :: lu_upper k' (S j) rest
          else piv :: lu_upper k' (S j) (map (eliminate j piv) rest)
      end
  end.

(** [lu(W, permute_l=True)[1]] for [W] with [ncols] columns *)
Definition lu (W : matrix) (ncols : nat) : matrix :=
  lu_upper (Nat.min (length W) ncols) 0 W.

(** *** scipy.linalg.inv

    The exact inverse, by Gauss-Jordan elimination on [M | I]. *)

Definition identity_row (n i : nat) : vector :=
  map (fun j => if Nat.eqb j i then 1%Q else 0%Q) (seq 0 n).

Definition augment (M : matrix) : matrix :=
  map (fun ir => snd ir ++ identity_row (length M) (fst ir))
      (combine (seq 0 (length M)) M).

Fixpoint take_pivot (j : nat) (rows : matrix) : option (vector * matrix) :=
  match rows with
  | [] => None
  | row :: rows' =>
      if Qeq_bool (col j row) 0 then
        match take_pivot j rows' with
        | Some (p, rest) => Some (p, row :: rest)
        | None => None
        end
      else Some (row, rows')
  end.

Fixpoint gauss_jordan (n j : nat) (done todo : matrix) : option matrix :=
  match n with
  | O => Some done
  | S n' =>
      match take_pivot j todo with
      | None => None
      | Some (p, rest) =>
          let p := scale (/ col j p) p in
          let clear := fun row => axpy (col j row) p row in
          gauss_jordan n' (S j) (map clear done ++ [p]) (map clear rest)
      end
  end.

Definition inv (M : matrix) : result matrix :=
  let n := length M in
  if forallb (fun row => Nat.eqb (length row) n) M then
    R <- of_option SingularMatrix (gauss_jordan n 0 [] (augment M)) ;;
    Returned (map (skipn n) R)
  else Raised NotSquare.

(** [numpy.dot(M, v)] for a matrix and a vector *)
Definition dot (M : matrix) (v : vector) : result vector :=
  if forallb (fun row => Nat.eqb (length row) (length v)) M then
    Returned (map (fun row =>
      fold_right (fun xy acc => Qred (fst xy * snd xy + acc)) 0%Q (combine row v)) M)
  else Raised ShapeMismatch.

Definition Qminimum (a b : Q) : Q := if Qltb b a then b else a.
Definition Qmaximum (a b : Q) : Q := if Qltb a b then b else a.

(** [numpy.min(x)] and [numpy.max(x)] *)
Definition np_min (x : vector) : result Q :=
  match x with
  | [] => Raised EmptySequence
  | a :: x' => Returned (fold_left Qminimum x' a)
  end.

Definition np_max (x : vector) : result Q :=
  match x with
  | [] => Raised EmptySequence
  | a :: x' => Returned (fold_left Qmaximum x' a)
  end.

(** ** Lineq.solve *)

(** [warn('Negative stretch %s' % xx[m])] *)
Inductive warning : Type := NegativeStretch (v : Q).

(** lines 91-98: canonical nodes are numbered in the order they are first
    met while iterating [self.cnodes] *)
Fixpoint index_cnodes (items : list (Node * CNode)) (cnode_map : Dict.t CNode nat)
    (cnode_imap : list CNode) (num : nat) : Dict.t CNode nat * list CNode * nat :=
  match items with
  | [] => (cnode_map, cnode_imap, num)
  | (node, cnode) :: items' =>
      if Dict.mem cnode_map cnode then index_cnodes items' cnode_map cnode_imap num
      else index_cnodes items' (Dict.set cnode_map cnode num)
                        (cnode_imap ++ [cnode]) (S num)
  end.

(** lines 100-103 *)
Definition count_stretches (cs : Constraints) : nat :=
  fold_left (fun n kc => if stretch (snd kc) then S n else n) cs O.

(** [cnode_map[key[i]]] *)
Definition vertex_index (cnode_map : Dict.t CNode nat) (v : Vertex) : result nat :=
  match v with
  | Canon c => of_option KeyError (Dict.get cnode_map c)
  | Raw _ => Raised KeyError
  end.

(** [cnode_map[self.cnodes[node]]] *)
Definition node_index (L : Lineq) (cnode_map : Dict.t CNode nat) (node : Node)
  : result nat :=
  cnode <- of_option KeyError (Dict.get (cnodes L) node) ;;
  of_option KeyError (Dict.get cnode_map cnode).

(** lines 109-111 and 182-187: the loop filling [pos], the coordinate of
    index [m] being [coord m] *)
Fixpoint place (coord : nat -> result Q) (L : Lineq) (cnode_map : Dict.t CNode nat)
    (items : list (Node * CNode)) (pos : Dict.t Node Q) : result (Dict.t Node Q) :=
  match items with
  | [] => Returned pos
  | (node, cnode) :: items' =>
      m <- node_index L cnode_map node ;;
      c <- coord m ;;
      place coord L cnode_map items' (Dict.set pos node c)
  end.

(** lines 184-187 *)
Definition coordinate (x : vector) (minx : Q) (m : nat) : result Q :=
  if Nat.eqb m 0 then Returned (Qred (0 - minx))
  else xm <- of_option IndexError (nth_error x (m - 1)) ;;
       Returned (Qred (xm - minx)).

(** lines 123-137 and 140: the rows of [W = hstack((A, b))]; [s] counts the
    stretch columns used so far *)
Fixpoint build_rows (cnode_map : Dict.t CNode nat) (Nnodes Nunknowns : nat)
    (items : list (Key * Constraint)) (s : nat) : result matrix :=
  match items with
  | [] => Returned []
  | (key, constraint) :: items' =>
      m1 <- vertex_index cnode_map (fst key) ;;
      m2 <- vertex_index cnode_map (snd key) ;;
      let row := zeros Nunknowns in
      row <- (if Nat.eqb m1 0 then Returned row
              else of_option IndexError (list_set row (m1 - 1) (-1)%Q)) ;;
      row <- (if Nat.eqb m2 0 then Returned row
              else of_option IndexError (list_set row (m2 - 1) 1%Q)) ;;
      rs <- (if stretch constraint
             then row' <- of_option IndexError
                            (list_set row (s + Nnodes - 1) (-1)%Q) ;;
                  Returned (row', S s)
             else Returned (row, s)) ;;
      rows <- build_rows cnode_map Nnodes Nunknowns items' (snd rs) ;;
      Returned ((fst rs ++ [size constraint]) :: rows)
  end.

(** lines 149-153 *)
Fixpoint check_nodes (U : matrix) (cnode_imap : list CNode) (rs : list nat)
    (bound : list nat) : result (list nat) :=
  match rs with
  | [] => Returned bound
  | r :: rs' =>
      u <- entry U r r ;;
      if Qeq_bool u 0 then
        c <- of_option IndexError (nth_error cnode_imap r) ;;
        Raised (NoBasicVariable c)
      else
        bound' <- of_option IndexError (list_set bound r 1%nat) ;;
        check_nodes U cnode_imap rs' bound'
  end.

(** [U[r, r:] = -U[r, r:]] *)
Fixpoint negate_from (U : matrix) (r c : nat) : matrix :=
  match U, r with
  | [], _ => []
  | row :: U', O => (firstn c row ++ map (fun v => Qred (- v)) (skipn c row)) :: U'
  | row :: U', S r' => row :: negate_from U' r' c
  end.

(** lines 155-160 *)
Fixpoint mark_basic (rs : list nat) (U : matrix) (bound : list nat)
  : result (matrix * list nat) :=
  match rs with
  | [] => Returned (U, bound)
  | r :: rs' =>
      u <- entry U r r ;;
      if Qeq_bool u 0 then mark_basic rs' U bound
      else
        bound' <- of_option IndexError (list_set bound r 1%nat) ;;
        mark_basic rs' (if Qltb u 0 then negate_from U r r else U) bound'
  end.

(** [row[bound != 0]] *)
Fixpoint select (bound : list nat) (row : vector) : vector :=
  match bound, row with
  | b :: bound', v :: row' =>
      if Nat.eqb b 0 then select bound' row' else v :: select bound' row'
  | _, _ => []
  end.

(** [U[:, -1]] *)
Fixpoint last_column (U : matrix) : result vector :=
  match U with
  | [] => Returned []
  | row :: U' =>
      v <- of_option IndexError (nth_error row (length row - 1)) ;;
      vs <- last_column U' ;;
      Returned (v :: vs)
  end.

(** lines 114-167: build the system, factor it, check the pivots and solve
    for the unknowns [xx] *)
Definition solve_unknowns (L : Lineq) (cnode_map : Dict.t CNode nat)
    (cnode_imap : list CNode) (Nnodes Nstretches : nat) : result vector :=
  if Nat.eqb (Nnodes + Nstretches) 0 then Raised NegativeDimensions else
  let Nunknowns := (Nnodes + Nstretches - 1)%nat in
  W <- build_rows cnode_map Nnodes Nunknowns (constraints L) 0 ;;
  let ncols := S Nunknowns in
  let U := lu W ncols in
  let bound := repeat O ncols in
  bound <- check_nodes U cnode_imap (seq 0 (Nnodes - 1)) bound ;;
  Ub <- mark_basic (seq 0 (length U)) U bound ;;
  let U := fst Ub in
  let bound := snd Ub in
  let Nbasic := list_sum bound in
  let Ur := map (select bound) (firstn Nbasic U) in
  br <- last_column (firstn Nbasic U) ;;
  Ui <- inv Ur ;;
  dot Ui br.

(** lines 174-176 *)
Definition negative_stretches (Nnodes : nat) (xx : vector) : list warning :=
  map NegativeStretch (filter (fun v => Qltb v 0) (skipn (Nnodes - 1) xx)).

(** lines 178-187 *)
Definition extract_positions (L : Lineq) (cnode_map : Dict.t CNode nat)
    (Nnodes : nat) (xx : vector) : result (Dict.t Node Q * Q) :=
  let x := firstn (Nnodes - 1) xx in
  minx <- np_min x ;;
  maxx <- np_max x ;;
  let width := Qred (maxx - minx) in
  pos <- place (coordinate x minx) L cnode_map (cnodes L) [] ;;
  Returned (pos, width).

(** Lineq.solve: the warnings emitted and the outcome *)
Definition solve (L : Lineq) : list warning * result (Dict.t Node Q * Q) :=
  let '(cnode_map, cnode_imap, _) := index_cnodes (cnodes L) [] [] 0 in
  let Nstretches := count_stretches (constraints L) in
  let Nnodes := length cnode_map in
  if Nat.eqb Nnodes 1 then
    ([], pos <- place (fun _ => Returned 0%Q) L cnode_map (cnodes L) [] ;;
         Returned (pos, 0%Q))
  else
    match solve_unknowns L cnode_map cnode_imap Nnodes Nstretches with
    | Raised e => ([], Raised e)
    | Returned xx =>
        (negative_stretches Nnodes xx, extract_positions L cnode_map Nnodes xx)
    end.

(** [Nnodes], and [xx] when [solve] gets as far as computing it *)
Definition num_nodes (L : Lineq) : nat :=
  length (fst (fst (index_cnodes (cnodes L) [] [] 0))).

Definition unknowns (L : Lineq) : result vector :=
  let '(cnode_map, cnode_imap, _) := index_cnodes (cnodes L) [] [] 0 in
  solve_unknowns L cnode_map cnode_imap (length cnode_map)
                 (count_stretches (constraints L)).

(** Every index in the table is below the number of entries. *)
Definition indices_bounded (cnode_map : Dict.t CNode nat) : Prop :=
  forall c m, Dict.get cnode_map c = Some m -> (m < length cnode_map)%nat.

(** ** Sequences of calls *)

Record call : Type :=
  mkCall { call_elt : Elt; call_n1 : Node; call_n2 : Node;
           call_size : Q; call_stretch : bool }.

Definition add_call (L : Lineq) (c : call) : Lineq * result unit :=
  add L (call_elt c) (call_n1 c) (call_n2 c) (call_size c) (call_stretch c).

(** The calls in turn, up to the first exception *)
Fixpoint add_all (L : Lineq) (calls : list call) : result Lineq :=
  match calls with
  | [] => Returned L
  | c :: calls' =>
      match add_call L c with
      | (L', Returned _) => add_all L' calls'
      | (_, Raised e) => Raised e
      end
  end.

(** Two stores with the same keys in the same order and, key by key, the
    same kind of constraint with the same value of size *)
Definition constraint_equiv (c c' : Constraint) : Prop :=
  stretch c = stretch c' /\ (size c == size c')%Q.

Definition store_equiv (cs cs' : Constraints) : Prop :=
  Forall2 (fun kc kc' => fst kc = fst kc' /\ constraint_equiv (snd kc) (snd kc'))
          cs cs'.

(** The claim that no stored size is negative, and what holds instead *)
Definition sizes_nonnegative (L : Lineq) : Prop :=
  Forall (fun kc => (0 <= size (snd kc))%Q) (constraints L).

Definition sizes_nonzero (L : Lineq) : Prop :=
  Forall (fun kc => ~ (size (snd kc) == 0)%Q) (constraints L).

(** The least coordinate of a placement *)
Definition min_coordinate (pos : Dict.t Node Q) : result Q :=
  np_min (map snd pos).

(** ** Invariants of the store and of the system *)

(** The object after the calls, whatever each of them raised *)
Definition after_calls (L : Lineq) (calls : list call) : Lineq :=
  fold_left (fun L c => fst (add_call L c)) calls L.

(** No key twice, and no key next to its reverse *)
Definition pairs_unique (cs : Constraints) : Prop :=
  NoDup (Dict.keys cs)
  /\ forall v1 v2, In (v1, v2) (Dict.keys cs) -> In (v2, v1) (Dict.keys cs) -> v1 = v2.

(** [v] is the canonical node of a node of [self.cnodes] *)
Definition vertex_known (cn : Cnodes) (v : Vertex) : Prop :=
  exists node c, v = Canon c /\ In (node, c) cn.

Definition vertices_known (L : Lineq) : Prop :=
  forall key, In key (Dict.keys (constraints L)) ->
              vertex_known (cnodes L) (fst key) /\ vertex_known (cnodes L) (snd key).

(** [W] has [rows] rows of [cols] entries *)
Definition has_shape (W : matrix) (rows cols : nat) : Prop :=
  length W = rows /\ Forall (fun row => length row = cols) W.




(** Every vertex of every key has an index *)
Definition keys_indexed (cnode_map : Dict.t CNode nat) (cs : Constraints) : Prop :=
  forall key, In key (Dict.keys cs) ->
              (exists i, vertex_index cnode_map (fst key) = Returned i)
              /\ (exists j, vertex_index cnode_map (snd key) = Returned j).

End Placer.

Arguments Vertex : clear implicits.
Arguments Lineq : clear implicits.
Arguments exn : clear implicits.
Arguments call : clear implicits.

(** ** Placements on named nodes *)

Module Examples.
Open Scope string_scope.

Definition placer : Type := Lineq string string.

(** [Lineq(direction, nodes)] on unlinked nodes: each node is its own
    canonical node *)
Definition new (nodes : list string) : placer :=
  mkLineq (map (fun n => (n, n)) nodes) [].

Definition fixed (n1 n2 : string) (sz : Q) : call string unit :=
  mkCall tt n1 n2 sz false.

Definition stretchy (n1 n2 : string) (sz : Q) : call string unit :=
  mkCall tt n1 n2 sz true.

(** The object after the calls, whatever each of them raised *)
Definition after (L : placer) (calls : list (call string unit)) : placer :=
  fold_left (fun L c => fst (add_call L c)) calls L.

(** One node, no constraint *)
Definition single : placer := new ["a"].

(** Two nodes 5 apart, with either of them met first *)
Definition two_nodes : placer := after (new ["a"; "b"]) [fixed "a" "b" 5].
Definition two_nodes' : placer := after (new ["b"; "a"]) [fixed "a" "b" 5].

(** [c] has no constraint at all: one equation for two unknowns *)
Definition isolated_node : placer := after (new ["a"; "b"; "c"]) [fixed "a" "b" 5].

(** [b], [c] and [d] hold together, nothing ties them to the reference [a] *)
Definition loose_triangle : placer :=
  after (new ["a"; "b"; "c"; "d"]) [fixed "b" "c" 3; fixed "c" "d" 4; fixed "b" "d" 7].

(** [b] is at 5 and [c] at 2, and a stretchy part from [b] to [c] wants 1 *)
Definition squeezed : placer :=
  after (new ["a"; "b"; "c"]) [fixed "a" "b" 5; fixed "a" "c" 2; stretchy "b" "c" 1].

(** A stretchy part one way, a longer one the other way *)
Definition there_and_back : list (call string unit) :=
  [stretchy "a" "b" 3; stretchy "b" "a" 7].

Definition key_ab : @Key string string := (Canon "a", Canon "b").

End Examples.

(** * Properties *)

Unset Implicit Arguments.

(** ** Numbers *)

Lemma Qltb_lt (x y : Q) : Qltb x y = true <-> (x < y)%Q.
Proof.
  unfold Qltb. rewrite negb_true_iff. split.
  - intro Hb. apply Qnot_le_lt. intro Hle.
    apply Qle_bool_iff in Hle. congruence.
  - intro Hlt. destruct (Qle_bool y x) eqn:Hb; [|reflexivity].
    apply Qle_bool_iff in Hb. exfalso. exact (Qlt_not_le _ _ Hlt Hb).
Qed.

Lemma Qltb_ge (x y : Q) : Qltb x y = false <-> (y <= x)%Q.
Proof.
  unfold Qltb. rewrite negb_false_iff. apply Qle_bool_iff.
Qed.

Lemma Qeq_bool_false (x y : Q) : Qeq_bool x y = false <-> ~ (x == y)%Q.
Proof.
  split.
  - intros Hb Heq. apply Qeq_bool_iff in Heq. congruence.
  - intro Hne. destruct (Qeq_bool x y) eqn:Hb; [|reflexivity].
    apply Qeq_bool_iff in Hb. contradiction.
Qed.

Lemma Qopp_opp_eq (q : Q) : (- - q)%Q = q.
Proof.
  destruct q as [a b]. unfold Qopp. simpl. now rewrite Z.opp_involutive.
Qed.

(** ** Dictionaries *)

Section DictFacts.
Context {K V : Type} `{Hashable K}.
Implicit Types (d : Dict.t K V) (k : K) (v : V).

Lemma dict_mem_get d k : Dict.mem d k = true <-> exists v, Dict.get d k = Some v.
Proof.
  unfold Dict.mem. destruct (Dict.get d k) as [v|].
  - split; [eauto|reflexivity].
  - split; [discriminate|intros [v Hv]; discriminate].
Qed.

Lemma dict_mem_false d k : Dict.mem d k = false <-> Dict.get d k = None.
Proof.
  unfold Dict.mem. destruct (Dict.get d k); split; congruence.
Qed.

Lemma dict_get_in d k v : Dict.get d k = Some v -> In (k, v) d.
Proof.
  induction d as [|[k' v'] d IH]; simpl; [discriminate|].
  destruct (key_eq_dec k' k) as [->|Hne]; intro Hg.
  - left. congruence.
  - right. auto.
Qed.

Lemma dict_in_mem d k v : In (k, v) d -> Dict.mem d k = true.
Proof.
  unfold Dict.mem.
  induction d as [|[k' v'] d IH]; simpl; [contradiction|].
  intros [Heq|Hin].
  - inversion Heq; subst. destruct (key_eq_dec k k); [reflexivity|contradiction].
  - destruct (key_eq_dec k' k); [reflexivity|auto].
Qed.

Lemma dict_get_set_same d k v : Dict.get (Dict.set d k v) k = Some v.
Proof.
  induction d as [|[k' v'] d IH]; simpl.
  - destruct (key_eq_dec k k); [reflexivity|contradiction].
  - destruct (key_eq_dec k' k) as [Heq|Hne]; simpl.
    + rewrite Heq. destruct (key_eq_dec k k); [reflexivity|contradiction].
    + destruct (key_eq_dec k' k); [contradiction|exact IH].
Qed.

Lemma dict_get_set_other d k k0 v : k0 <> k -> Dict.get (Dict.set d k0 v) k = Dict.get d k.
Proof.
  intro Hne. induction d as [|[k' v'] d IH]; simpl.
  - destruct (key_eq_dec k0 k); [contradiction|reflexivity].
  - destruct (key_eq_dec k' k0) as [Heq|Hne']; simpl.
    + destruct (key_eq_dec k' k); [congruence|reflexivity].
    + destruct (key_eq_dec k' k); [reflexivity|exact IH].
Qed.

Lemma dict_mem_set d k k0 v :
  Dict.mem (Dict.set d k0 v) k = if key_eq_dec k0 k then true else Dict.mem d k.
Proof.
  unfold Dict.mem. destruct (key_eq_dec k0 k) as [->|Hne].
  - now rewrite dict_get_set_same.
  - now rewrite dict_get_set_other.
Qed.

Lemma dict_mem_cons d k k0 v :
  Dict.mem ((k0, v) :: d) k = if key_eq_dec k0 k then true else Dict.mem d k.
Proof.
  unfold Dict.mem. simpl. destruct (key_eq_dec k0 k); reflexivity.
Qed.

Lemma dict_singleton_get k v : Dict.get [(k, v)] k = Some v.
Proof.
  simpl. destruct (key_eq_dec k k); [reflexivity|contradiction].
Qed.

Lemma dict_singleton_set k v v' : Dict.set [(k, v)] k v' = [(k, v')].
Proof.
  simpl. destruct (key_eq_dec k k); [reflexivity|contradiction].
Qed.

Lemma dict_singleton_mem k k' v :
  Dict.mem [(k, v)] k' = if key_eq_dec k k' then true else false.
Proof.
  rewrite dict_mem_cons. reflexivity.
Qed.

Lemma dict_in_set d k k0 v v0 :
  In (k, v) (Dict.set d k0 v0) -> In (k, v) d \/ (k = k0 /\ v = v0).
Proof.
  induction d as [|[k' v'] d IH]; simpl.
  - intros [Heq|[]]. right. inversion Heq; subst; split; reflexivity.
  - destruct (key_eq_dec k' k0) as [Heq|Hne]; simpl.
    + intros [Hh|Ht]; [|auto]. right. inversion Hh; subst; split; reflexivity.
    + intros [Hh|Ht]; [auto|]. destruct (IH Ht); auto.
Qed.

Lemma dict_set_new_length d k v :
  Dict.mem d k = false -> length (Dict.set d k v) = S (length d).
Proof.
  unfold Dict.mem.
  induction d as [|[k' v'] d IH]; simpl; [reflexivity|].
  destruct (key_eq_dec k' k); [discriminate|]. simpl. intro Hm. now rewrite IH.
Qed.

Lemma dict_set_same_shape d k v v' (R : K * V -> K * V -> Prop) :
  (forall kv, R kv kv) ->
  Dict.get d k = Some v' ->
  (forall k', R (k', v) (k', v')) ->
  Forall2 R (Dict.set d k v) d.
Proof.
  intros Hrefl Hg Hr. induction d as [|[k' v''] d IH]; simpl in *; [discriminate|].
  destruct (key_eq_dec k' k) as [Heq|Hne].
  - inversion Hg; subst. constructor; [apply Hr|].
    clear - Hrefl. induction d; constructor; auto.
  - constructor; auto.
Qed.

End DictFacts.

(** ** Lineq.add *)

Section AddFacts.
Context {Node CNode Elt : Type} `{Hashable Node} `{Hashable CNode}.
Implicit Types (L : Lineq Node CNode) (n : Node) (elt : Elt).

Lemma orient_nonzero n1 n2 sz m1 m2 s :
  ~ (sz == 0)%Q -> orient n1 n2 sz = (m1, m2, s) -> (0 < s)%Q.
Proof.
  unfold orient. intros Hnz. destruct (Qltb sz 0) eqn:Hlt; intro Heq; inversion Heq; subst.
  - apply Qltb_lt in Hlt. apply (Qopp_lt_compat sz 0) in Hlt. exact Hlt.
  - apply Qltb_ge in Hlt. apply Qle_lteq in Hlt. destruct Hlt as [Hlt|Heq0]; [exact Hlt|].
    exfalso. apply Hnz. symmetry. exact Heq0.
Qed.

(** A call whose pair has no constraint yet appends the constraint. *)
Lemma add_fresh L elt n1 n2 sz st m1 m2 s :
  ~ (sz == 0)%Q ->
  orient n1 n2 sz = (m1, m2, s) ->
  Dict.mem (constraints L) (canonical L m1, canonical L m2) = false ->
  Dict.mem (constraints L) (canonical L m2, canonical L m1) = false ->
  add L elt n1 n2 sz st =
    (with_constraints L (Dict.set (constraints L) (canonical L m1, canonical L m2)
                                  (mkConstraint s st)), Returned tt).
Proof.
  intros Hnz Ho Hk Hk2. unfold add.
  apply Qeq_bool_false in Hnz. rewrite Hnz, Ho, Hk, Hk2. reflexivity.
Qed.

(** A call whose pair has a constraint is resolved against it. *)
Lemma add_existing L elt n1 n2 sz st m1 m2 s key s' ex :
  ~ (sz == 0)%Q ->
  orient n1 n2 sz = (m1, m2, s) ->
  stored_key L (canonical L m1) (canonical L m2) s = (key, s') ->
  Dict.get (constraints L) key = Some ex ->
  add L elt n1 n2 sz st =
    if negb (stretch ex) then
      if negb st && negb (Qeq_bool (size ex) s')
      then (L, Raised (IncompatibleFixed s' (size ex)))
      else (with_constraints L (Dict.set (constraints L) key (mkConstraint s' st)),
            Returned tt)
    else if Qltb (Qabs (size ex)) (Qabs s')
    then (with_constraints L (Dict.set (constraints L) key (mkConstraint s' st)),
          Returned tt)
    else (L, Returned tt).
Proof.
  intros Hnz Ho Hk Hg. unfold add.
  apply Qeq_bool_false in Hnz. rewrite Hnz, Ho.
  assert (Hex : negb (Dict.mem (constraints L) (canonical L m1, canonical L m2))
                && negb (Dict.mem (constraints L) (canonical L m2, canonical L m1))
                = false).
  { unfold stored_key in Hk.
    destruct (Dict.mem (constraints L) (canonical L m2, canonical L m1)) eqn:Hm2.
    - apply andb_false_r.
    - inversion Hk; subst.
      assert (Hm : Dict.mem (constraints L) (canonical L m1, canonical L m2) = true)
        by (apply dict_mem_get; eauto).
      rewrite Hm. reflexivity. }
  rewrite Hex, Hk, Hg. reflexivity.
Qed.

(** Lines 58-60, 67-68 and 73-75 together: the key a request is resolved
    against and the size seen from it.  The key that runs against the
    request once its size is positive is looked up first; under the key
    [(n1, n2)] of the call the size is the size of the call, under
    [(n2, n1)] it is its opposite. *)
Lemma add_resolution L n1 n2 sz m1 m2 s key s' :
  ~ (sz == 0)%Q ->
  orient n1 n2 sz = (m1, m2, s) ->
  stored_key L (canonical L m1) (canonical L m2) s = (key, s') ->
  (key = (canonical L n1, canonical L n2) /\ s' = sz
   /\ (Dict.mem (constraints L) (canonical L n2, canonical L n1) = false \/ (sz < 0)%Q))
  \/ (key = (canonical L n2, canonical L n1) /\ s' = (- sz)%Q
      /\ (Dict.mem (constraints L) (canonical L n1, canonical L n2) = false \/ (0 < sz)%Q)).
Proof.
  intros Hnz Ho Hk. pose proof (orient_nonzero n1 n2 sz m1 m2 s Hnz Ho) as Hpos.
  unfold orient in Ho. destruct (Qltb sz 0) eqn:Hlt; injection Ho as <- <- <-.
  - apply Qltb_lt in Hlt. unfold stored_key in Hk.
    destruct (Dict.mem (constraints L) (canonical L n1, canonical L n2)) eqn:Hm;
      injection Hk as <- <-.
    + left. rewrite Qopp_opp_eq. auto.
    + right. auto.
  - unfold stored_key in Hk.
    destruct (Dict.mem (constraints L) (canonical L n2, canonical L n1)) eqn:Hm;
      injection Hk as <- <-.
    + right. auto.
    + left. auto.
Qed.

Lemma add_resolved_along L n1 n2 sz :
  ~ (sz == 0)%Q ->
  Dict.mem (constraints L) (canonical L n2, canonical L n1) = false \/ (sz < 0)%Q ->
  Dict.mem (constraints L) (canonical L n1, canonical L n2) = true ->
  exists m1 m2 s,
    orient n1 n2 sz = (m1, m2, s)
    /\ stored_key L (canonical L m1) (canonical L m2) s
       = ((canonical L n1, canonical L n2), sz).
Proof.
  intros Hnz Hother Hm. unfold orient. destruct (Qltb sz 0) eqn:Hlt.
  - exists n2, n1, (- sz)%Q. split; [reflexivity|].
    unfold stored_key. rewrite Hm, Qopp_opp_eq. reflexivity.
  - exists n1, n2, sz. split; [reflexivity|].
    destruct Hother as [Hm2|Hneg].
    + unfold stored_key. rewrite Hm2. reflexivity.
    + exfalso. apply Qltb_ge in Hlt. exact (Qlt_not_le _ _ Hneg Hlt).
Qed.

Lemma add_resolved_against L n1 n2 sz :
  ~ (sz == 0)%Q ->
  Dict.mem (constraints L) (canonical L n1, canonical L n2) = false \/ (0 < sz)%Q ->
  Dict.mem (constraints L) (canonical L n2, canonical L n1) = true ->
  exists m1 m2 s,
    orient n1 n2 sz = (m1, m2, s)
    /\ stored_key L (canonical L m1) (canonical L m2) s
       = ((canonical L n2, canonical L n1), (- sz)%Q).
Proof.
  intros Hnz Hother Hm. unfold orient. destruct (Qltb sz 0) eqn:Hlt.
  - exists n2, n1, (- sz)%Q. split; [reflexivity|].
    destruct Hother as [Hm1|Hpos].
    + unfold stored_key. rewrite Hm1. reflexivity.
    + exfalso. apply Qltb_lt in Hlt. exact (Qlt_irrefl _ (Qlt_trans _ _ _ Hpos Hlt)).
  - exists n1, n2, sz. split; [reflexivity|].
    unfold stored_key. rewrite Hm. reflexivity.
Qed.

(** A fixed request resolved against a fixed constraint of size [e] stored
    under [key], where the request has size [s']. *)
Lemma add_fixed_resolved L elt n1 n2 sz m1 m2 s key s' e :
  ~ (sz == 0)%Q ->
  orient n1 n2 sz = (m1, m2, s) ->
  stored_key L (canonical L m1) (canonical L m2) s = (key, s') ->
  Dict.get (constraints L) key = Some (mkConstraint e false) ->
  (~ (s' == e)%Q ->
   add L elt n1 n2 sz false = (L, Raised (IncompatibleFixed s' e)))
  /\ ((s' == e)%Q ->
      exists L',
        add L elt n1 n2 sz false = (L', Returned tt)
        /\ cnodes L' = cnodes L
        /\ store_equiv (constraints L') (constraints L)
        /\ Dict.get (constraints L') key = Some (mkConstraint s' false)).
Proof.
  intros Hnz Ho Hk Hg.
  rewrite (add_existing L elt n1 n2 sz false m1 m2 s key s' _ Hnz Ho Hk Hg). simpl.
  split.
  - intro Hne.
    assert (Hb : Qeq_bool e s' = false).
    { apply Qeq_bool_false. intro Heq. apply Hne. symmetry. exact Heq. }
    rewrite Hb. reflexivity.
  - intro Heq.
    assert (Hb : Qeq_bool e s' = true) by (apply Qeq_bool_iff; symmetry; exact Heq).
    rewrite Hb. simpl. eexists. split; [reflexivity|]. simpl.
    split; [reflexivity|]. split.
    + apply dict_set_same_shape with (v' := mkConstraint e false).
      * intros kv. split; [reflexivity|]. split; [reflexivity|apply Qeq_refl].
      * exact Hg.
      * intros k'. simpl. split; [reflexivity|]. split; [reflexivity|exact Heq].
    + apply dict_get_set_same.
Qed.

(** Whatever [add] raises, the object is the one it was called on. *)
Lemma add_raised_unchanged L elt n1 n2 sz st e :
  snd (add L elt n1 n2 sz st) = Raised e -> fst (add L elt n1 n2 sz st) = L.
Proof.
  unfold add.
  destruct (Qeq_bool sz 0); [discriminate|].
  destruct (orient n1 n2 sz) as [[m1 m2] s].
  destruct (negb _ && negb _); [discriminate|].
  destruct (stored_key _ _ _ _) as [key s'].
  destruct (Dict.get _ key) as [ex|]; [|reflexivity].
  destruct (negb (stretch ex)).
  - destruct (negb _ && negb _); [reflexivity|discriminate].
  - destruct (Qltb _ _); discriminate.
Qed.

(** C8: when [add] raises the incompatible-fixed-constraint error, the
    object after the call is the object before it: nothing was stored,
    replaced or removed. *)
Theorem add_atomic_on_failure L elt n1 n2 sz st incoming existing :
  snd (add L elt n1 n2 sz st) = Raised (IncompatibleFixed incoming existing) ->
  fst (add L elt n1 n2 sz st) = L.
Proof.
  apply add_raised_unchanged.
Qed.

(** C5: a fixed constraint of size [e] is stored for the pair of [n1] and
    [n2], and a fixed request of non-zero size [sz] comes from [n1] to [n2].
    When the constraint is stored under the key [(n1, n2)] of the request,
    [sz] is compared with [e]; when it is stored under the reversed key
    [(n2, n1)], the size is negated first and [- sz] is compared with [e].
    (Should the store hold both keys, the sign of [sz] tells which one is
    looked up.)  If the two sizes differ, [add] raises the error carrying
    both, the size of the request as compared first; if they are equal,
    [add] returns, and the store has the same keys in the same order with
    constraints of the same kind and size as before, the one for the pair
    being the fixed constraint of the size compared. *)
Theorem add_fixed_on_fixed L elt n1 n2 sz e :
  ~ (sz == 0)%Q ->
  (Dict.get (constraints L) (canonical L n1, canonical L n2)
   = Some (mkConstraint e false) ->
   Dict.mem (constraints L) (canonical L n2, canonical L n1) = false \/ (sz < 0)%Q ->
   (~ (sz == e)%Q ->
    add L elt n1 n2 sz false = (L, Raised (IncompatibleFixed sz e)))
   /\ ((sz == e)%Q ->
       exists L',
         add L elt n1 n2 sz false = (L', Returned tt)
         /\ cnodes L' = cnodes L
         /\ store_equiv (constraints L') (constraints L)
         /\ Dict.get (constraints L') (canonical L n1, canonical L n2)
            = Some (mkConstraint sz false)))
  /\ (Dict.get (constraints L) (canonical L n2, canonical L n1)
      = Some (mkConstraint e false) ->
      Dict.mem (constraints L) (canonical L n1, canonical L n2) = false \/ (0 < sz)%Q ->
      (~ (- sz == e)%Q ->
       add L elt n1 n2 sz false = (L, Raised (IncompatibleFixed (- sz) e)))
      /\ ((- sz == e)%Q ->
          exists L',
            add L elt n1 n2 sz false = (L', Returned tt)
            /\ cnodes L' = cnodes L
            /\ store_equiv (constraints L') (constraints L)
            /\ Dict.get (constraints L') (canonical L n2, canonical L n1)
               = Some (mkConstraint (- sz) false))).
Proof.
  intro Hnz. split; intros Hg Hother.
  - assert (Hm : Dict.mem (constraints L) (canonical L n1, canonical L n2) = true)
      by (apply dict_mem_get; eauto).
    destruct (add_resolved_along L n1 n2 sz Hnz Hother Hm) as (m1 & m2 & s & Ho & Hk).
    exact (add_fixed_resolved L elt n1 n2 sz m1 m2 s _ sz e Hnz Ho Hk Hg).
  - assert (Hm : Dict.mem (constraints L) (canonical L n2, canonical L n1) = true)
      by (apply dict_mem_get; eauto).
    destruct (add_resolved_against L n1 n2 sz Hnz Hother Hm) as (m1 & m2 & s & Ho & Hk).
    exact (add_fixed_resolved L elt n1 n2 sz m1 m2 s _ (- sz)%Q e Hnz Ho Hk Hg).
Qed.

(** A request for a pair whose constraint is the only one in the store, in
    the direction of the stored key and against it. *)
Lemma add_along_stored_key (cn : @Cnodes Node CNode) (a b : Node) (q : Q)
    (ex : Constraint) :
  let key := (canonical (mkLineq cn []) a, canonical (mkLineq cn []) b) in
  let L := mkLineq cn [(key, ex)] in
  canonical (mkLineq cn []) a <> canonical (mkLineq cn []) b ->
  (0 < q)%Q ->
  stored_key L (canonical L a) (canonical L b) q = (key, q)
  /\ stored_key L (canonical L b) (canonical L a) q = (key, (- q)%Q)
  /\ orient a b q = (a, b, q)
  /\ orient b a q = (b, a, q)
  /\ Dict.get (constraints L) key = Some ex
  /\ ~ (q == 0)%Q.
Proof.
  intros key L Hab Hq.
  change (canonical L a) with (canonical (mkLineq cn []) a).
  change (canonical L b) with (canonical (mkLineq cn []) b).
  assert (Ho : Qltb q 0 = false) by (apply Qltb_ge, Qlt_le_weak; exact Hq).
  assert (Hba : Dict.mem (constraints L)
                  (canonical (mkLineq cn []) b, canonical (mkLineq cn []) a) = false).
  { unfold L. simpl constraints. rewrite dict_singleton_mem.
    destruct (key_eq_dec _ _) as [Heq|_]; [|reflexivity].
    exfalso. apply Hab. injection Heq as Heq _. exact Heq. }
  assert (Hkey : Dict.mem (constraints L) key = true).
  { unfold L. simpl constraints. rewrite dict_singleton_mem.
    destruct (key_eq_dec _ _) as [_|Hne]; [reflexivity|]. exfalso. apply Hne. reflexivity. }
  unfold stored_key, orient. rewrite Hba, Ho. fold key. rewrite Hkey.
  repeat split.
  - apply dict_singleton_get.
  - intro Hz. rewrite Hz in Hq. exact (Qlt_irrefl _ Hq).
Qed.

(** C6: a constraint [ex] is stored for the pair, under [key], and a request
    comes for the pair, of size [s'] as seen from [key].  Over a fixed [ex],
    a stretchy request, or a fixed one of equal size, is stored in its place.
    Over a stretchy [ex], the request is stored in its place when
    [|s'| > |size ex|] and dropped otherwise.  So of two stretchy requests of
    sizes 3 and 7 for one pair, the one of size 7 is what the store holds,
    in either order; when the two name the pair in opposite directions, it is
    held under the key of the first, as -7 if that is the other's. *)
Theorem add_override :
  (forall L elt n1 n2 sz st m1 m2 s key s' ex,
      ~ (sz == 0)%Q ->
      orient n1 n2 sz = (m1, m2, s) ->
      stored_key L (canonical L m1) (canonical L m2) s = (key, s') ->
      Dict.get (constraints L) key = Some ex ->
      let stored :=
        (with_constraints L (Dict.set (constraints L) key (mkConstraint s' st)),
         Returned tt) in
      (stretch ex = false -> st = true \/ (s' == size ex)%Q ->
       add L elt n1 n2 sz st = stored)
      /\ (stretch ex = true -> (Qabs (size ex) < Qabs s')%Q ->
          add L elt n1 n2 sz st = stored)
      /\ (stretch ex = true -> ~ (Qabs (size ex) < Qabs s')%Q ->
          add L elt n1 n2 sz st = (L, Returned tt)))
  /\ (forall (cn : Cnodes) (elt elt' : Elt) (a b : Node),
         let L := mkLineq cn [] in
         let after2 := fun n1 n2 sz n1' n2' sz' =>
           constraints (fst (add (fst (add L elt n1 n2 sz true)) elt' n1' n2' sz' true)) in
         canonical L a <> canonical L b ->
         after2 a b 3 a b 7 = [((canonical L a, canonical L b), mkConstraint 7 true)]
         /\ after2 a b 7 a b 3 = [((canonical L a, canonical L b), mkConstraint 7 true)]
         /\ after2 a b 3 b a 7 = [((canonical L a, canonical L b), mkConstraint (-7) true)]
         /\ after2 b a 7 a b 3 = [((canonical L b, canonical L a), mkConstraint 7 true)]).
Proof.
  split.
  - intros L elt n1 n2 sz st m1 m2 s key s' ex Hnz Ho Hk Hg stored.
    rewrite (add_existing L elt n1 n2 sz st m1 m2 s key s' ex Hnz Ho Hk Hg).
    split; [|split].
    + intros Hf Hor. rewrite Hf. simpl.
      destruct Hor as [->|Heq]; [reflexivity|].
      assert (Hb : Qeq_bool (size ex) s' = true)
        by (apply Qeq_bool_iff; symmetry; exact Heq).
      rewrite Hb, andb_false_r. reflexivity.
    + intros Hs Hlt. rewrite Hs. simpl.
      apply Qltb_lt in Hlt. rewrite Hlt. reflexivity.
    + intros Hs Hnlt. rewrite Hs. simpl.
      destruct (Qltb (Qabs (size ex)) (Qabs s')) eqn:Hb; [|reflexivity].
      apply Qltb_lt in Hb. contradiction.
  - intros cn elt elt' a b L after2 Hab. subst after2 L. cbv beta.
    assert (Hba : canonical (mkLineq cn []) b <> canonical (mkLineq cn []) a) by congruence.
    assert (H3 : (0 < 3)%Q) by reflexivity.
    assert (H7 : (0 < 7)%Q) by reflexivity.
    assert (Hfirst : forall n1 n2 sz,
               (0 < sz)%Q ->
               add (mkLineq cn []) elt n1 n2 sz true
               = (mkLineq cn [((canonical (mkLineq cn []) n1, canonical (mkLineq cn []) n2), mkConstraint sz true)],
                  Returned tt)).
    { intros n1 n2 sz Hsz.
      rewrite (add_fresh (mkLineq cn []) elt n1 n2 sz true n1 n2 sz); try reflexivity.
      - intro Hz. rewrite Hz in Hsz. exact (Qlt_irrefl _ Hsz).
      - unfold orient.
        replace (Qltb sz 0) with false; [reflexivity|].
        symmetry. apply Qltb_ge, Qlt_le_weak. exact Hsz. }
    repeat split.
    + rewrite (Hfirst a b 3 H3). cbn [fst].
      destruct (add_along_stored_key cn a b 7 (mkConstraint 3 true) Hab H7)
        as (Hk & _ & Ho & _ & Hg & Hnz).
      rewrite (add_existing _ elt' a b 7 true a b 7 _ _ _ Hnz Ho Hk Hg).
      cbn [stretch size negb]. cbn [constraints with_constraints fst].
      rewrite dict_singleton_set. reflexivity.
    + rewrite (Hfirst a b 7 H7). cbn [fst].
      destruct (add_along_stored_key cn a b 3 (mkConstraint 7 true) Hab H3)
        as (Hk & _ & Ho & _ & Hg & Hnz).
      rewrite (add_existing _ elt' a b 3 true a b 3 _ _ _ Hnz Ho Hk Hg).
      reflexivity.
    + rewrite (Hfirst a b 3 H3). cbn [fst].
      destruct (add_along_stored_key cn a b 7 (mkConstraint 3 true) Hab H7)
        as (_ & Hk & _ & Ho & Hg & Hnz).
      rewrite (add_existing _ elt' b a 7 true b a 7 _ _ _ Hnz Ho Hk Hg).
      cbn [stretch size negb]. cbn [constraints with_constraints fst].
      rewrite dict_singleton_set. reflexivity.
    + rewrite (Hfirst b a 7 H7). cbn [fst].
      destruct (add_along_stored_key cn b a 3 (mkConstraint 7 true) Hba H3)
        as (_ & Hk & _ & Ho & Hg & Hnz).
      rewrite (add_existing _ elt' a b 3 true a b 3 _ _ _ Hnz Ho Hk Hg).
      reflexivity.
Qed.

(** C10: the pair of [a] and [b] has no constraint; a fixed constraint of
    size 5 is added from [a] to [b], then a fixed request of size 5 comes
    from [b] to [a].  The second call raises the incompatible fixed
    constraint error, carrying the request negated to -5 and the stored 5,
    and leaves the object as the first call left it. *)
Theorem add_reversed_equal_fixed L elt elt' (a b : Node) :
  Dict.mem (constraints L) (canonical L a, canonical L b) = false ->
  Dict.mem (constraints L) (canonical L b, canonical L a) = false ->
  let L1 := fst (add L elt a b 5 false) in
  add L1 elt' b a 5 false = (L1, Raised (IncompatibleFixed (-5) 5)).
Proof.
  intros Hk Hk2 L1.
  set (key := (canonical L a, canonical L b)) in *.
  assert (H5 : ~ (5 == 0)%Q) by discriminate.
  assert (HL1 : L1 = with_constraints L
                       (Dict.set (constraints L) key (mkConstraint 5 false))).
  { unfold L1. rewrite (add_fresh L elt a b 5 false a b 5 H5 eq_refl Hk Hk2).
    reflexivity. }
  assert (Hget : Dict.get (constraints L1) key = Some (mkConstraint 5 false)).
  { rewrite HL1. simpl. apply dict_get_set_same. }
  rewrite (add_existing L1 elt' b a 5 false b a 5 key (-5)%Q (mkConstraint 5 false) H5).
  - reflexivity.
  - reflexivity.
  - unfold stored_key.
    replace (canonical L1 a) with (canonical L a) by (rewrite HL1; reflexivity).
    replace (canonical L1 b) with (canonical L b) by (rewrite HL1; reflexivity).
    fold key.
    assert (Hm : Dict.mem (constraints L1) key = true)
      by (apply dict_mem_get; eauto).
    rewrite Hm. reflexivity.
  - exact Hget.
Qed.

(** What a call leaves in the store: what was there, or the request, under
    its own key when the reversed key is not in the store, and negated under
    the reversed key when it is. *)
Lemma add_stored L elt n1 n2 sz st L' r k c :
  add L elt n1 n2 sz st = (L', r) ->
  In (k, c) (constraints L') ->
  In (k, c) (constraints L)
  \/ exists m1 m2 s,
      ~ (sz == 0)%Q /\ orient n1 n2 sz = (m1, m2, s)
      /\ ((k = (canonical L m1, canonical L m2) /\ c = mkConstraint s st
           /\ Dict.mem (constraints L) (canonical L m2, canonical L m1) = false)
          \/ (k = (canonical L m2, canonical L m1) /\ c = mkConstraint (- s) st
              /\ Dict.mem (constraints L) (canonical L m2, canonical L m1) = true)).
Proof.
  intros Hadd Hin.
  destruct (Qeq_bool sz 0) eqn:Hz.
  { unfold add in Hadd. rewrite Hz in Hadd. injection Hadd as <- _. auto. }
  apply Qeq_bool_false in Hz.
  destruct (orient n1 n2 sz) as [[m1 m2] s] eqn:Ho.
  assert (Hnew : forall key s',
             In (k, c) (Dict.set (constraints L) key (mkConstraint s' st)) ->
             In (k, c) (constraints L) \/ (k = key /\ c = mkConstraint s' st)).
  { intros key s'. apply dict_in_set. }
  destruct (Dict.mem (constraints L) (canonical L m2, canonical L m1)) eqn:Hk2.
  - assert (Hsk : stored_key L (canonical L m1) (canonical L m2) s
                  = ((canonical L m2, canonical L m1), - s))
      by (unfold stored_key; rewrite Hk2; reflexivity).
    destruct (proj1 (dict_mem_get _ _) Hk2) as [ex Hg].
    rewrite (add_existing L elt n1 n2 sz st m1 m2 s _ _ ex Hz Ho Hsk Hg) in Hadd.
    assert (Hcase : L' = L
                    \/ L' = with_constraints L
                              (Dict.set (constraints L) (canonical L m2, canonical L m1)
                                        (mkConstraint (- s) st))).
    { destruct (negb (stretch ex));
        [destruct (negb st && negb (Qeq_bool (size ex) (- s)))
        |destruct (Qltb (Qabs (size ex)) (Qabs (- s)))];
        injection Hadd as <- _; auto. }
    destruct Hcase as [->| ->]; [auto|]. simpl in Hin.
    destruct (Hnew _ _ Hin) as [Hold|[-> ->]]; [auto|].
    right. exists m1, m2, s. split; [exact Hz|split; [reflexivity|right; auto]].
  - destruct (Dict.mem (constraints L) (canonical L m1, canonical L m2)) eqn:Hk1.
    + assert (Hsk : stored_key L (canonical L m1) (canonical L m2) s
                    = ((canonical L m1, canonical L m2), s))
        by (unfold stored_key; rewrite Hk2; reflexivity).
      destruct (proj1 (dict_mem_get _ _) Hk1) as [ex Hg].
      rewrite (add_existing L elt n1 n2 sz st m1 m2 s _ _ ex Hz Ho Hsk Hg) in Hadd.
      assert (Hcase : L' = L
                      \/ L' = with_constraints L
                                (Dict.set (constraints L) (canonical L m1, canonical L m2)
                                          (mkConstraint s st))).
      { destruct (negb (stretch ex));
          [destruct (negb st && negb (Qeq_bool (size ex) s))
          |destruct (Qltb (Qabs (size ex)) (Qabs s))];
          injection Hadd as <- _; auto. }
      destruct Hcase as [->| ->]; [auto|]. simpl in Hin.
      destruct (Hnew _ _ Hin) as [Hold|[-> ->]]; [auto|].
      right. exists m1, m2, s. split; [exact Hz|split; [reflexivity|left; auto]].
    + rewrite (add_fresh L elt n1 n2 sz st m1 m2 s Hz Ho Hk1 Hk2) in Hadd.
      injection Hadd as <- _. simpl in Hin.
      destruct (Hnew _ _ Hin) as [Hold|[-> ->]]; [auto|].
      right. exists m1, m2, s. split; [exact Hz|split; [reflexivity|left; auto]].
Qed.

Lemma add_keeps_nonzero L elt n1 n2 sz st L' r :
  add L elt n1 n2 sz st = (L', r) -> sizes_nonzero L -> sizes_nonzero L'.
Proof.
  intros Hadd HL. unfold sizes_nonzero in *. rewrite Forall_forall in *.
  intros [k c] Hin. simpl.
  destruct (add_stored L elt n1 n2 sz st L' _ k c Hadd Hin) as [Hold|(m1 & m2 & s & Hnz & Ho & Hcase)].
  - exact (HL _ Hold).
  - pose proof (orient_nonzero n1 n2 sz m1 m2 s Hnz Ho) as Hpos.
    destruct Hcase as [(_ & -> & _)|(_ & -> & _)]; simpl; intro Hz.
    + rewrite Hz in Hpos. exact (Qlt_irrefl _ Hpos).
    + apply (Qopp_lt_compat 0 s) in Hpos. rewrite Hz in Hpos. exact (Qlt_irrefl _ Hpos).
Qed.

Lemma add_all_keeps_nonzero (calls : list (call Node Elt)) : forall L L',
  add_all L calls = Returned L' -> sizes_nonzero L -> sizes_nonzero L'.
Proof.
  induction calls as [|c calls IH]; simpl; intros L L' Hrun HL.
  - inversion Hrun; subst. exact HL.
  - unfold add_call in Hrun.
    destruct (add L (call_elt c) (call_n1 c) (call_n2 c) (call_size c) (call_stretch c))
      as [L1 [u|e]] eqn:Hadd; [|discriminate].
    apply (IH L1 L' Hrun). exact (add_keeps_nonzero _ _ _ _ _ _ _ _ Hadd HL).
Qed.

(** C3, as the code has it: after every sequence of [add] calls that
    completes without error, every stored constraint has a non-zero size.
    The constraint a call stores has a positive size, unless the call comes
    for the reverse of a key that is in the store: then it is stored under
    that key with its size negated, hence negative. *)
Theorem add_sizes_nonzero :
  (forall (cn : Cnodes) (calls : list (call Node Elt)) L,
      add_all (mkLineq cn []) calls = Returned L -> sizes_nonzero L)
  /\ (forall L elt n1 n2 sz st L' k c,
         add L elt n1 n2 sz st = (L', Returned tt) ->
         In (k, c) (constraints L') ->
         In (k, c) (constraints L)
         \/ (0 < size c)%Q
         \/ ((size c < 0)%Q /\ Dict.mem (constraints L) k = true
             /\ exists m1 m2 s, orient n1 n2 sz = (m1, m2, s)
                                /\ k = (canonical L m2, canonical L m1))).
Proof.
  split.
  - intros cn calls L Hrun. apply (add_all_keeps_nonzero _ _ _ Hrun). constructor.
  - intros L elt n1 n2 sz st L' k c Hadd Hin.
    destruct (add_stored L elt n1 n2 sz st L' _ k c Hadd Hin) as [Hold|(m1 & m2 & s & Hnz & Ho & Hcase)];
      [auto|].
    pose proof (orient_nonzero n1 n2 sz m1 m2 s Hnz Ho) as Hpos.
    destruct Hcase as [(_ & -> & _)|(-> & -> & Hm)]; simpl.
    + auto.
    + right. right. split; [|split].
      * apply (Qopp_lt_compat 0 s) in Hpos. exact Hpos.
      * exact Hm.
      * eauto.
Qed.

End AddFacts.

(** ** Lineq.solve: the node indexer *)

Open Scope nat_scope.

Section SolveFacts.
Context {Node CNode : Type} `{Hashable Node} `{Hashable CNode}.
Implicit Types (L : Lineq Node CNode) (cnode_map : Dict.t CNode nat).

Lemma index_cnodes_spec (items : list (Node * CNode)) :
  forall cnode_map cnode_imap num,
    num = length cnode_map ->
    indices_bounded cnode_map ->
    let cnode_map' := fst (fst (index_cnodes items cnode_map cnode_imap num)) in
    indices_bounded cnode_map'
    /\ (forall c, Dict.mem cnode_map c = true -> Dict.mem cnode_map' c = true)
    /\ (forall node c, In (node, c) items -> Dict.mem cnode_map' c = true).
Proof.
  induction items as [|[node cnode] items IH]; intros cnode_map cnode_imap num Hnum Hb.
  - simpl. split; [exact Hb|]. split; [auto|]. intros node c [].
  - simpl. destruct (Dict.mem cnode_map cnode) eqn:Hm.
    + destruct (IH cnode_map cnode_imap num Hnum Hb) as (Hb' & Hmono & Hall).
      split; [exact Hb'|]. split; [exact Hmono|].
      intros node' c [Heq|Hin].
      * inversion Heq; subst. apply Hmono. exact Hm.
      * exact (Hall node' c Hin).
    + assert (Hlen : S num = length (Dict.set cnode_map cnode num)).
      { rewrite dict_set_new_length by exact Hm. congruence. }
      assert (Hb1 : indices_bounded (Dict.set cnode_map cnode num)).
      { intros c m Hg. rewrite <- Hlen.
        destruct (key_eq_dec cnode c) as [->|Hne].
        - rewrite dict_get_set_same in Hg. inversion Hg. lia.
        - rewrite dict_get_set_other in Hg by exact Hne.
          apply Hb in Hg. lia. }
      destruct (IH (Dict.set cnode_map cnode num) (cnode_imap ++ [cnode]) (S num) Hlen Hb1)
        as (Hb' & Hmono & Hall).
      split; [exact Hb'|]. split.
      * intros c Hc. apply Hmono. rewrite dict_mem_set.
        destruct (key_eq_dec cnode c); [reflexivity|exact Hc].
      * intros node' c [Heq|Hin].
        -- inversion Heq; subst. apply Hmono. rewrite dict_mem_set.
           destruct (key_eq_dec c c); [reflexivity|contradiction].
        -- exact (Hall node' c Hin).
Qed.

(** Every node of [self.cnodes] has an index, below [Nnodes]. *)
Lemma node_index_ok L node c :
  In (node, c) (cnodes L) ->
  exists m, node_index L (fst (fst (index_cnodes (cnodes L) [] [] 0))) node = Returned m
            /\ m < num_nodes L.
Proof.
  intro Hin.
  assert (Hb0 : indices_bounded ([] : Dict.t CNode nat)) by (intros c' m'; discriminate).
  destruct (index_cnodes_spec (cnodes L) [] [] 0 eq_refl Hb0) as (Hb & _ & Hall).
  unfold node_index.
  pose proof (dict_in_mem _ _ _ Hin) as Hm. apply dict_mem_get in Hm.
  destruct Hm as [c' Hc']. rewrite Hc'. simpl.
  pose proof (Hall node c' (dict_get_in _ _ _ Hc')) as Hm'.
  apply dict_mem_get in Hm'. destruct Hm' as [m Hgm].
  exists m. rewrite Hgm. split; [reflexivity|]. exact (Hb c' m Hgm).
Qed.

(** The loop filling [pos] goes through when every index below [Nnodes]
    has a coordinate; it leaves in [pos] the nodes it went over. *)
Lemma place_ok L (coord : nat -> result Q) (P : Q -> Prop) :
  (forall m, m < num_nodes L -> exists q, coord m = Returned q /\ P q) ->
  forall (items : list (Node * CNode)) (pos : Dict.t Node Q),
    (forall node c, In (node, c) items -> In (node, c) (cnodes L)) ->
    (forall node q, Dict.get pos node = Some q -> P q) ->
    exists pos',
      place coord L (fst (fst (index_cnodes (cnodes L) [] [] 0))) items pos
      = Returned pos'
      /\ (forall node q, Dict.get pos' node = Some q -> P q)
      /\ (forall node, Dict.mem pos' node
                       = Dict.mem pos node || Dict.mem items node).
Proof.
  intros Hcoord. induction items as [|[node cnode] items IH]; intros pos Hsub HP.
  - simpl. exists pos. split; [reflexivity|]. split; [exact HP|].
    intro node. now rewrite orb_false_r.
  - simpl.
    destruct (node_index_ok L node cnode (Hsub _ _ (or_introl eq_refl)))
      as (m & Hm & Hlt).
    rewrite Hm. simpl.
    destruct (Hcoord m Hlt) as (q & Hq & HPq). rewrite Hq. simpl.
    destruct (IH (Dict.set pos node q)) as (pos' & Hrun & HP' & Hkeys).
    + intros node' c Hin. apply Hsub. right. exact Hin.
    + intros node' q' Hg. destruct (key_eq_dec node node') as [->|Hne].
      * rewrite dict_get_set_same in Hg. inversion Hg; subst. exact HPq.
      * rewrite dict_get_set_other in Hg by exact Hne. exact (HP _ _ Hg).
    + exists pos'. split; [exact Hrun|]. split; [exact HP'|].
      intro node'. rewrite Hkeys, dict_mem_set, dict_mem_cons.
      destruct (key_eq_dec node node'), (Dict.mem pos node'), (Dict.mem items node');
        reflexivity.
Qed.

Lemma solve_eq L :
  let cnode_map := fst (fst (index_cnodes (cnodes L) [] [] 0)) in
  solve L =
    if Nat.eqb (num_nodes L) 1 then
      ([], pos <- place (fun _ => Returned 0%Q) L cnode_map (cnodes L) [] ;;
           Returned (pos, 0%Q))
    else
      match unknowns L with
      | Raised e => ([], Raised e)
      | Returned xx =>
          (negative_stretches (num_nodes L) xx,
           extract_positions L cnode_map (num_nodes L) xx)
      end.
Proof.
  unfold solve, unknowns, num_nodes.
  destruct (index_cnodes (cnodes L) [] [] 0) as [[cnode_map cnode_imap] num].
  reflexivity.
Qed.

(** C9: with exactly one canonical node, [solve] returns, without a
    warning and whatever the constraints are, span 0 and a position for the
    nodes of [self.cnodes] and no others, each of them 0. *)
Theorem solve_single_node L :
  num_nodes L = 1 ->
  exists pos,
    solve L = ([], Returned (pos, 0%Q))
    /\ (forall node, Dict.mem (cnodes L) node = true -> Dict.get pos node = Some 0%Q)
    /\ (forall node, Dict.mem (cnodes L) node = false -> Dict.get pos node = None).
Proof.
  intro Hone. rewrite solve_eq. cbv zeta. rewrite Hone. simpl.
  destruct (place_ok L (fun _ => Returned 0%Q) (fun q => q = 0%Q)
              (fun m _ => ex_intro _ 0%Q (conj eq_refl eq_refl))
              (cnodes L) [] (fun _ _ Hin => Hin))
    as (pos & Hrun & Hzero & Hkeys).
  { intros node q Hg. discriminate. }
  exists pos. rewrite Hrun. simpl. split; [reflexivity|]. split.
  - intros node Hm.
    assert (Hp : Dict.mem pos node = true) by (rewrite Hkeys, Hm; reflexivity).
    apply dict_mem_get in Hp. destruct Hp as [q Hq].
    rewrite Hq. f_equal. exact (Hzero _ _ Hq).
  - intros node Hm. apply dict_mem_false. rewrite Hkeys, Hm. reflexivity.
Qed.

(** ** Lineq.solve: the solver *)

Lemma bind_returned {A B : Type} (m : outcome (exn CNode) A)
    (f : A -> outcome (exn CNode) B) b :
  bind m f = Returned b -> exists a, m = Returned a /\ f a = Returned b.
Proof.
  destruct m as [a|e]; simpl; [eauto|discriminate].
Qed.

Lemma of_option_returned {A : Type} (e : exn CNode) (o : option A) a :
  of_option e o = Returned a -> o = Some a.
Proof.
  destruct o; simpl; congruence.
Qed.

Lemma list_set_spec {A : Type} (l : list A) : forall i v l',
  list_set l i v = Some l' ->
  length l' = length l
  /\ nth_error l' i = Some v
  /\ forall j, j <> i -> nth_error l' j = nth_error l j.
Proof.
  induction l as [|x l IH]; intros i v l'; simpl; [discriminate|].
  destruct i as [|i].
  - intro Heq; inversion Heq; subst. simpl. split; [reflexivity|].
    split; [reflexivity|]. intros [|j] Hj; [contradiction|reflexivity].
  - destruct (list_set l i v) as [l0|] eqn:Hs; simpl; [|discriminate].
    intro Heq; inversion Heq; subst.
    destruct (IH i v l0 Hs) as (Hlen & Hi & Hother).
    simpl. split; [now rewrite Hlen|]. split; [exact Hi|].
    intros [|j] Hj; [reflexivity|]. simpl. apply Hother. congruence.
Qed.

Lemma list_set_keeps_mark (bound bound' : list nat) r r0 :
  list_set bound r0 1 = Some bound' ->
  nth_error bound r = Some 1 -> nth_error bound' r = Some 1.
Proof.
  intros Hs Hr. destruct (list_set_spec bound r0 1 bound' Hs) as (_ & Hi & Hother).
  destruct (Nat.eq_dec r r0) as [->|Hne]; [exact Hi|].
  rewrite (Hother r Hne). exact Hr.
Qed.

Lemma entry_returned (U : matrix) r c u :
  entry U r c = @Returned (exn CNode) Q u -> r < length U.
Proof.
  unfold entry. intro He. apply bind_returned in He. destruct He as (row & Hrow & _).
  apply of_option_returned in Hrow. apply nth_error_Some. congruence.
Qed.

(** After the first loop every [r] it went over is a row of [U] and is
    marked in [bound]. *)
Lemma check_nodes_spec (U : matrix) (cnode_imap : list CNode) (rs : list nat) :
  forall bound bound',
    check_nodes U cnode_imap rs bound = Returned bound' ->
    (forall r, nth_error bound r = Some 1 -> nth_error bound' r = Some 1)
    /\ (forall r, In r rs -> r < length U /\ nth_error bound' r = Some 1).
Proof.
  induction rs as [|r0 rs IH]; intros bound bound'; simpl.
  - intro Heq; inversion Heq; subst. split; [auto|]. intros r [].
  - intro Hrun. apply bind_returned in Hrun. destruct Hrun as (u & Hu & Hrun).
    destruct (Qeq_bool u 0).
    { apply bind_returned in Hrun. destruct Hrun as (c & _ & Hc). discriminate. }
    apply bind_returned in Hrun. destruct Hrun as (bound1 & Hset & Hrun).
    apply of_option_returned in Hset.
    destruct (IH bound1 bound' Hrun) as (Hmono & Hall).
    split.
    + intros r Hr. apply Hmono. exact (list_set_keeps_mark _ _ _ _ Hset Hr).
    + intros r [<-|Hin]; [|exact (Hall r Hin)].
      split; [exact (entry_returned _ _ _ _ Hu)|].
      apply Hmono. exact (proj1 (proj2 (list_set_spec _ _ _ _ Hset))).
Qed.

Lemma list_set_some {A : Type} (l : list A) : forall i v,
  i < length l -> exists l', list_set l i v = Some l'.
Proof.
  induction l as [|x l IH]; intros i v Hi; simpl in *; [lia|].
  destruct i as [|i]; [eauto|].
  destruct (IH i v) as [l' Hl']; [lia|]. rewrite Hl'. simpl. eauto.
Qed.

(** Where [U] has the rows the first loop reads, the loop raises
    'No basic variable' exactly when one of the diagonal entries it reads
    is zero. *)
Lemma check_nodes_no_basic (U : matrix) (cnode_imap : list CNode) (rs : list nat) :
  forall bound,
    (forall r, In r rs ->
               r < length bound /\ r < length cnode_imap
               /\ exists u, entry U r r = @Returned (exn CNode) Q u) ->
    (exists c, check_nodes U cnode_imap rs bound = Raised (NoBasicVariable c))
    <-> (exists r u, In r rs /\ entry U r r = @Returned (exn CNode) Q u /\ (u == 0)%Q).
Proof.
  induction rs as [|r0 rs IH]; intros bound Hshape.
  - simpl. split.
    + intros [c Hc]. discriminate.
    + intros (r & u & [] & _).
  - destruct (Hshape r0 (or_introl eq_refl)) as (Hb & Hi & u0 & Hu0).
    simpl. rewrite Hu0. simpl.
    destruct (Qeq_bool u0 0) eqn:Hz.
    + apply Qeq_bool_iff in Hz. split.
      * intros _. exists r0, u0. auto.
      * intros _. destruct (nth_error cnode_imap r0) as [c|] eqn:Hc.
        -- exists c. reflexivity.
        -- apply nth_error_None in Hc. lia.
    + apply Qeq_bool_false in Hz.
      destruct (list_set_some bound r0 1 Hb) as [bound' Hset]. rewrite Hset. simpl.
      destruct (list_set_spec _ _ _ _ Hset) as (Hlen & _).
      rewrite (IH bound').
      * split.
        -- intros (r & u & Hin & Hr). exists r, u. auto.
        -- intros (r & u & [<-|Hin] & Hu & Hzero).
           ++ rewrite Hu0 in Hu. inversion Hu; subst. contradiction.
           ++ exists r, u. auto.
      * intros r Hin. rewrite Hlen. apply Hshape. right. exact Hin.
Qed.

Lemma negate_from_length (U : matrix) : forall r c, length (negate_from U r c) = length U.
Proof.
  induction U as [|row U IH]; intros [|r] c; simpl; auto.
Qed.

(** The second loop keeps the rows of [U] and the marks of [bound]. *)
Lemma mark_basic_spec (rs : list nat) : forall (U : matrix) bound U' bound',
    mark_basic rs U bound = @Returned (exn CNode) _ (U', bound') ->
    length U' = length U
    /\ (forall r, nth_error bound r = Some 1 -> nth_error bound' r = Some 1).
Proof.
  induction rs as [|r0 rs IH]; intros U bound U' bound'; simpl.
  - intro Heq; inversion Heq; subst. auto.
  - intro Hrun. apply bind_returned in Hrun. destruct Hrun as (u & Hu & Hrun).
    destruct (Qeq_bool u 0); [exact (IH _ _ _ _ Hrun)|].
    apply bind_returned in Hrun. destruct Hrun as (bound1 & Hset & Hrun).
    apply of_option_returned in Hset.
    destruct (IH _ _ _ _ Hrun) as (Hlen & Hmono).
    split.
    + rewrite Hlen. destruct (Qltb u 0); [apply negate_from_length|reflexivity].
    + intros r Hr. apply Hmono. exact (list_set_keeps_mark _ _ _ _ Hset Hr).
Qed.

Lemma marked_prefix_sum (bound : list nat) : forall n,
  (forall r, r < n -> nth_error bound r = Some 1) -> n <= list_sum bound.
Proof.
  induction bound as [|b bound IH]; intros [|n] Hn; simpl; try lia.
  - specialize (Hn 0 (Nat.lt_0_succ n)). discriminate.
  - assert (Hb : b = 1) by (specialize (Hn 0 (Nat.lt_0_succ n)); simpl in Hn; congruence).
    assert (Hrest : n <= list_sum bound).
    { apply IH. intros r Hr. apply (Hn (S r)). lia. }
    lia.
Qed.

Lemma last_column_length (U : matrix) : forall v,
  last_column U = @Returned (exn CNode) _ v -> length v = length U.
Proof.
  induction U as [|row U IH]; intros v; simpl.
  - intro Heq; inversion Heq; reflexivity.
  - intro Hrun. apply bind_returned in Hrun. destruct Hrun as (x & _ & Hrun).
    apply bind_returned in Hrun. destruct Hrun as (vs & Hvs & Hrun).
    inversion Hrun; subst. simpl. now rewrite (IH vs Hvs).
Qed.

Lemma take_pivot_length (j : nat) (rows : matrix) : forall p rest,
  take_pivot j rows = Some (p, rest) -> length rows = S (length rest).
Proof.
  induction rows as [|row rows IH]; intros p rest; simpl; [discriminate|].
  destruct (Qeq_bool (col j row) 0).
  - destruct (take_pivot j rows) as [[p' rest']|] eqn:Ht; [|discriminate].
    intro Heq; inversion Heq; subst. simpl. now rewrite (IH p rest' eq_refl).
  - intro Heq; inversion Heq; subst. reflexivity.
Qed.

Lemma gauss_jordan_length (n : nat) : forall j (done todo R : matrix),
  gauss_jordan n j done todo = Some R -> length R = length done + n.
Proof.
  induction n as [|n IH]; intros j done todo R; simpl.
  - intro Heq; inversion Heq; subst. lia.
  - destruct (take_pivot j todo) as [[p rest]|]; [|discriminate].
    intro Hrun. rewrite (IH _ _ _ _ Hrun).
    rewrite length_app, length_map. simpl. lia.
Qed.

(** The inverse has as many rows as the matrix. *)
Lemma inv_length (M R : matrix) : inv M = @Returned (exn CNode) _ R -> length R = length M.
Proof.
  unfold inv. cbv zeta. destruct (forallb _ _); [|discriminate].
  intro Hrun. apply bind_returned in Hrun. destruct Hrun as (G & HG & Hret).
  apply of_option_returned in HG. inversion Hret; subst.
  rewrite length_map. exact (gauss_jordan_length _ _ _ _ _ HG).
Qed.

Lemma dot_length (M : matrix) (v w : vector) :
  dot M v = @Returned (exn CNode) _ w -> length w = length M.
Proof.
  unfold dot. destruct (forallb _ _); [|discriminate].
  intro Heq; inversion Heq; subst. apply length_map.
Qed.

(** When the solver returns [xx], it holds an offset for every canonical
    node but the reference. *)
Lemma solve_unknowns_length L cnode_map (cnode_imap : list CNode) Nnodes Nstretches xx :
  solve_unknowns L cnode_map cnode_imap Nnodes Nstretches = Returned xx ->
  Nnodes - 1 <= length xx.
Proof.
  unfold solve_unknowns. destruct (Nat.eqb (Nnodes + Nstretches) 0); [discriminate|].
  intro Hrun.
  apply bind_returned in Hrun. destruct Hrun as (W & _ & Hrun).
  apply bind_returned in Hrun. destruct Hrun as (bound1 & Hcheck & Hrun).
  apply bind_returned in Hrun. destruct Hrun as ([U2 bound2] & Hmark & Hrun).
  simpl in Hrun.
  apply bind_returned in Hrun. destruct Hrun as (br & Hbr & Hrun).
  apply bind_returned in Hrun. destruct Hrun as (Ui & Hinv & Hdot).
  apply check_nodes_spec in Hcheck. destruct Hcheck as (_ & Hrows).
  apply mark_basic_spec in Hmark. destruct Hmark as (HlenU & Hmono).
  assert (Hmarked : forall r, r < Nnodes - 1 -> nth_error bound2 r = Some 1).
  { intros r Hr. apply Hmono. apply (Hrows r). apply in_seq. lia. }
  assert (HU : Nnodes - 1 <= length U2).
  { rewrite HlenU. destruct (Nnodes - 1) as [|n] eqn:Hn; [lia|].
    assert (Hin : In n (seq 0 (S n))) by (apply in_seq; lia).
    destruct (Hrows n Hin) as [Hlt _]. lia. }
  pose proof (marked_prefix_sum bound2 (Nnodes - 1) Hmarked) as Hsum.
  rewrite (dot_length _ _ _ Hdot), (inv_length _ _ Hinv), length_map, length_firstn.
  lia.
Qed.

(** Without canonical nodes the solver raises. *)
Lemma solve_unknowns_nodes L cnode_map (cnode_imap : list CNode) xx :
  solve_unknowns L cnode_map cnode_imap (length cnode_map)
                 (count_stretches (constraints L)) = Returned xx ->
  0 < length cnode_map.
Proof.
  destruct cnode_map as [|kv cnode_map]; [|simpl; lia].
  unfold solve_unknowns.
  destruct (constraints L) as [|[key c] cs]; [discriminate|].
  destruct (Nat.eqb _ _); [discriminate|].
  simpl. destruct (fst key); discriminate.
Qed.

Lemma np_min_returned (x : vector) :
  0 < length x -> exists q, np_min x = @Returned (exn CNode) _ q.
Proof.
  destruct x; simpl; [lia|eauto].
Qed.

Lemma np_max_returned (x : vector) :
  0 < length x -> exists q, np_max x = @Returned (exn CNode) _ q.
Proof.
  destruct x; simpl; [lia|eauto].
Qed.

(** Once [xx] holds an offset for every canonical node but the
    reference, and there are at least two of them, the positions are
    extracted without error, one for each node of [self.cnodes]. *)
Lemma extract_positions_ok L xx :
  2 <= num_nodes L ->
  num_nodes L - 1 <= length xx ->
  exists pos width,
    extract_positions L (fst (fst (index_cnodes (cnodes L) [] [] 0))) (num_nodes L) xx
    = Returned (pos, width)
    /\ forall node, Dict.mem pos node = Dict.mem (cnodes L) node.
Proof.
  intros Htwo Hlen. unfold extract_positions. cbv zeta.
  set (x := firstn (num_nodes L - 1) xx).
  assert (Hx : length x = num_nodes L - 1).
  { unfold x. rewrite length_firstn. lia. }
  destruct (np_min_returned x) as [minx Hmin]; [lia|].
  destruct (np_max_returned x) as [maxx Hmax]; [lia|].
  rewrite Hmin, Hmax. simpl.
  destruct (place_ok L (coordinate x minx) (fun _ => True)) with
    (items := cnodes L) (pos := @nil (Node * Q)) as (pos & Hrun & _ & Hkeys).
  - intros m Hm. unfold coordinate. destruct (Nat.eqb m 0) eqn:Hz; [eauto|].
    apply Nat.eqb_neq in Hz.
    destruct (nth_error x (m - 1)) as [xm|] eqn:Hnth.
    + simpl. eauto.
    + apply nth_error_None in Hnth. lia.
  - auto.
  - auto.
  - rewrite Hrun. simpl. exists pos. eexists. split; [reflexivity|].
    intro node. rewrite Hkeys. reflexivity.
Qed.

(** C7: when [solve] gets to resolve [xx], it returns positions and a
    span, raising nothing; the warnings it emits are the negative stretch
    values among [xx[Nnodes-1:]], one warning for each, carrying the value;
    the positions are one for each node of [self.cnodes], warnings or not. *)
Theorem negative_stretch_warning L xx :
  num_nodes L <> 1 ->
  unknowns L = Returned xx ->
  exists pos width,
    solve L = (map NegativeStretch
                   (filter (fun v => Qltb v 0) (skipn (num_nodes L - 1) xx)),
               Returned (pos, width))
    /\ (forall v, In v (skipn (num_nodes L - 1) xx) -> (v < 0)%Q ->
                  In (NegativeStretch v) (fst (solve L)))
    /\ (forall node, Dict.mem pos node = Dict.mem (cnodes L) node).
Proof.
  intros Hne Hxx.
  assert (Hlen : num_nodes L - 1 <= length xx /\ 0 < num_nodes L).
  { unfold unknowns in Hxx. unfold num_nodes.
    destruct (index_cnodes (cnodes L) [] [] 0) as [[cnode_map cnode_imap] num].
    simpl. split.
    - exact (solve_unknowns_length _ _ _ _ _ _ Hxx).
    - exact (solve_unknowns_nodes _ _ _ _ Hxx). }
  destruct Hlen as [Hlen Hpos].
  destruct (extract_positions_ok L xx) as (pos & width & Hex & Hkeys); [lia|exact Hlen|].
  assert (Hsolve : solve L = (negative_stretches (num_nodes L) xx, Returned (pos, width))).
  { rewrite solve_eq. cbv zeta.
    destruct (Nat.eqb (num_nodes L) 1) eqn:Hone;
      [apply Nat.eqb_eq in Hone; contradiction|].
    rewrite Hxx, Hex. reflexivity. }
  exists pos, width. split; [exact Hsolve|]. split; [|exact Hkeys].
  intros v Hin Hneg. rewrite Hsolve. simpl. unfold negative_stretches.
  apply in_map. apply filter_In. split; [exact Hin|]. apply Qltb_lt. exact Hneg.
Qed.

(** ** Lineq.solve: two nodes and one fixed constraint *)

Lemma key_eq_dec_refl {A : Type} `{Hashable A} {B : Type} (x : A) (u v : B) :
  (if key_eq_dec x x then u else v) = u.
Proof.
  destruct (key_eq_dec x x); [reflexivity|contradiction].
Qed.

Lemma key_eq_dec_neq {A : Type} `{Hashable A} {B : Type} (x y : A) (u v : B) :
  x <> y -> (if key_eq_dec x y then u else v) = v.
Proof.
  intro Hne. destruct (key_eq_dec x y); [contradiction|reflexivity].
Qed.

(** Whatever the two nodes are called, the first met is placed at -5 and
    the other at 0 when the constraint leads away from the reference, and
    the span is 0. *)
Lemma solve_two_nodes_forward {Elt : Type} (elt : Elt) (a b : Node) (ca cb : CNode) :
  a <> b -> ca <> cb ->
  solve (fst (add (mkLineq [(a, ca); (b, cb)] []) elt a b 5 false))
  = ([], Returned ([(a, (-5)%Q); (b, 0%Q)], 0%Q)).
Proof.
  intros Hab Hc.
  assert (Hba : b <> a) by congruence.
  assert (Hc' : cb <> ca) by congruence.
  unfold add, orient, canonical. simpl.
  rewrite !key_eq_dec_refl, (key_eq_dec_neq a b) by assumption.
  unfold Dict.mem. simpl.
  unfold solve. simpl.
  unfold Dict.mem. simpl.
  rewrite (key_eq_dec_neq ca cb) by assumption. simpl.
  rewrite (key_eq_dec_neq ca cb) by assumption. simpl.
  unfold solve_unknowns. simpl.
  rewrite !key_eq_dec_refl, ?(key_eq_dec_neq ca cb) by assumption. simpl.
  unfold extract_positions. simpl. unfold node_index. simpl.
  rewrite !key_eq_dec_refl, ?(key_eq_dec_neq a b), ?(key_eq_dec_neq ca cb)
    by assumption.
  simpl.
  rewrite !key_eq_dec_refl, ?(key_eq_dec_neq a b), ?(key_eq_dec_neq ca cb)
    by assumption.
  unfold bind, of_option, coordinate. simpl.
  rewrite ?(key_eq_dec_neq a b) by assumption.
  reflexivity.
Qed.

(** The same with [b] met first: [b] is the reference, it is placed at 5
    and [a] at 0, and the span is 0 again. *)
Lemma solve_two_nodes_backward {Elt : Type} (elt : Elt) (a b : Node) (ca cb : CNode) :
  a <> b -> ca <> cb ->
  solve (fst (add (mkLineq [(b, cb); (a, ca)] []) elt a b 5 false))
  = ([], Returned ([(b, 5%Q); (a, 0%Q)], 0%Q)).
Proof.
  intros Hab Hc.
  assert (Hba : b <> a) by congruence.
  assert (Hc' : cb <> ca) by congruence.
  unfold add, orient, canonical. simpl.
  rewrite !key_eq_dec_refl, (key_eq_dec_neq b a) by assumption.
  unfold Dict.mem. simpl.
  unfold solve. simpl.
  unfold Dict.mem. simpl.
  rewrite (key_eq_dec_neq cb ca) by assumption. simpl.
  rewrite (key_eq_dec_neq cb ca) by assumption. simpl.
  unfold solve_unknowns. simpl.
  rewrite !key_eq_dec_refl, ?(key_eq_dec_neq cb ca) by assumption. simpl.
  unfold extract_positions. simpl. unfold node_index. simpl.
  rewrite !key_eq_dec_refl, ?(key_eq_dec_neq b a), ?(key_eq_dec_neq cb ca)
    by assumption.
  simpl.
  rewrite !key_eq_dec_refl, ?(key_eq_dec_neq b a), ?(key_eq_dec_neq cb ca)
    by assumption.
  unfold bind, of_option, coordinate. simpl.
  rewrite ?(key_eq_dec_neq b a) by assumption.
  reflexivity.
Qed.

End SolveFacts.


(** ** Placements on named nodes *)

Import Examples.

Lemma Qeq_decide_false (x y : Q) : Qeq_bool x y = false -> ~ (x == y)%Q.
Proof.
  apply Qeq_bool_false.
Qed.

(** C1, at two nodes 5 apart: [solve] returns, and the least of the
    coordinates it returns is -5, not 0: [min(x)] went over the offset of
    [b] alone and the reference [a], at 0, was left out of it. *)
Theorem solve_min_leaves_out_reference :
  exists pos width,
    solve two_nodes = ([], Returned (pos, width))
    /\ 2 <= num_nodes two_nodes
    /\ min_coordinate pos = @Returned (exn string) Q (-5)%Q.
Proof.
  exists [("a", (-5)%Q); ("b", 0%Q)]%string, 0%Q.
  split; [vm_compute; reflexivity|]. split; [vm_compute; lia|reflexivity].
Qed.

(** C2, at two nodes and the one fixed constraint of size 5 between them:
    the coordinates [solve] returns are 5 apart, and the span it returns
    is 0, whichever of the two nodes is the reference. *)
Theorem solve_two_nodes_span :
  solve two_nodes = ([], Returned ([("a", (-5)%Q); ("b", 0%Q)]%string, 0%Q))
  /\ solve two_nodes' = ([], Returned ([("b", 5%Q); ("a", 0%Q)]%string, 0%Q)).
Proof.
  split; vm_compute; reflexivity.
Qed.

(** C3 as stated fails: a stretchy request of size 3 from [a] to [b], then
    one of size 7 from [b] to [a]; both calls return, and the store holds
    size -7 under the key [(a, b)]. *)
Lemma add_stores_negative_size :
  add_all (new ["a"; "b"]%string) there_and_back
  = Returned (after (new ["a"; "b"]%string) there_and_back)
  /\ constraints (after (new ["a"; "b"]%string) there_and_back)
     = [(key_ab, mkConstraint (-7) true)]
  /\ ~ sizes_nonnegative (after (new ["a"; "b"]%string) there_and_back).
Proof.
  split; [vm_compute; reflexivity|]. split; [vm_compute; reflexivity|].
  unfold sizes_nonnegative. intro Hall.
  apply Forall_inv in Hall. vm_compute in Hall. apply Hall. reflexivity.
Qed.

Lemma add_sizes_nonzero_witness :
  add_all (new ["a"; "b"]%string) there_and_back
  = Returned (after (new ["a"; "b"]%string) there_and_back)
  /\ sizes_nonzero (after (new ["a"; "b"]%string) there_and_back).
Proof.
  split; [vm_compute; reflexivity|].
  apply (proj1 (@add_sizes_nonzero string string unit _ _)
           (cnodes (new ["a"; "b"]%string)) there_and_back).
  vm_compute; reflexivity.
Defined.

(** C4, at three nodes of which [c] has no constraint: [solve] raises,
    but not the 'No basic variable' error; [U] has one row, and reading
    [U[1, 1]] is an IndexError. *)
Theorem solve_isolated_node :
  lu [[1; 0; 5]]%Q 3 = [[1; 0; 5]]%Q
  /\ solve isolated_node = ([], Raised IndexError).
Proof.
  split; vm_compute; reflexivity.
Qed.

(** With as many equations as nodes to place, a group of nodes that
    nothing ties to the reference does raise 'No basic variable'. *)
Example solve_loose_triangle :
  solve loose_triangle = ([], Raised (NoBasicVariable "c"%string)).
Proof.
  vm_compute. reflexivity.
Qed.

Lemma add_fixed_on_fixed_witness :
  (add two_nodes tt "a"%string "b"%string 7 false
   = (two_nodes, Raised (IncompatibleFixed 7 5))
   /\ exists L',
       add two_nodes tt "a"%string "b"%string 5 false = (L', Returned tt)
       /\ cnodes L' = cnodes two_nodes
       /\ store_equiv (constraints L') (constraints two_nodes)
       /\ Dict.get (constraints L') key_ab = Some (mkConstraint 5 false))
  /\ (add two_nodes tt "b"%string "a"%string 5 false
      = (two_nodes, Raised (IncompatibleFixed (- (5)) 5))
      /\ exists L',
          add two_nodes tt "b"%string "a"%string (-5) false = (L', Returned tt)
          /\ cnodes L' = cnodes two_nodes
          /\ store_equiv (constraints L') (constraints two_nodes)
          /\ Dict.get (constraints L') key_ab = Some (mkConstraint (- (-5)) false)).
Proof.
  assert (Hnz : forall q : Q, Qeq_bool q 0 = false -> ~ (q == 0)%Q)
    by (intros q Hq; apply Qeq_decide_false; exact Hq).
  split; split.
  - destruct (add_fixed_on_fixed two_nodes tt "a"%string "b"%string 7 5
                (Hnz 7%Q eq_refl)) as [Halong _].
    apply Halong.
    + vm_compute. reflexivity.
    + left. vm_compute. reflexivity.
    + apply Qeq_decide_false. reflexivity.
  - destruct (add_fixed_on_fixed two_nodes tt "a"%string "b"%string 5 5
                (Hnz 5%Q eq_refl)) as [Halong _].
    apply Halong.
    + vm_compute. reflexivity.
    + left. vm_compute. reflexivity.
    + reflexivity.
  - destruct (add_fixed_on_fixed two_nodes tt "b"%string "a"%string 5 5
                (Hnz 5%Q eq_refl)) as [_ Hagainst].
    apply Hagainst.
    + vm_compute. reflexivity.
    + left. vm_compute. reflexivity.
    + apply Qeq_decide_false. reflexivity.
  - destruct (add_fixed_on_fixed two_nodes tt "b"%string "a"%string (-5) 5
                (Hnz (-5)%Q eq_refl)) as [_ Hagainst].
    apply Hagainst.
    + vm_compute. reflexivity.
    + left. vm_compute. reflexivity.
    + reflexivity.
Defined.

Lemma add_override_witness :
  add two_nodes tt "b"%string "a"%string 2 true
  = (with_constraints two_nodes [(key_ab, mkConstraint (-2) true)], Returned tt)
  /\ constraints (fst (add (fst (add (new ["a"; "b"]%string) tt "a"%string "b"%string
                                      3 true))
                           tt "a"%string "b"%string 7 true))
     = [(key_ab, mkConstraint 7 true)].
Proof.
  split.
  - assert (Hset : with_constraints two_nodes [(key_ab, mkConstraint (-2) true)]
                   = with_constraints two_nodes
                       (Dict.set (constraints two_nodes) key_ab (mkConstraint (-2) true)))
      by (vm_compute; reflexivity).
    rewrite Hset.
    assert (Hnz : ~ (2 == 0)%Q) by (apply Qeq_decide_false; reflexivity).
    assert (Hk : stored_key two_nodes (canonical two_nodes "b"%string)
                   (canonical two_nodes "a"%string) 2 = (key_ab, (-2)%Q))
      by (vm_compute; reflexivity).
    assert (Hg : Dict.get (constraints two_nodes) key_ab = Some (mkConstraint 5 false))
      by (vm_compute; reflexivity).
    destruct (proj1 (@add_override string string unit _ _)
                two_nodes tt "b"%string "a"%string 2%Q true
                "b"%string "a"%string 2%Q key_ab (-2)%Q (mkConstraint 5 false)
                Hnz eq_refl Hk Hg) as (Hfixed & _).
    apply Hfixed; [reflexivity|left; reflexivity].
  - assert (Hab : canonical (new ["a"; "b"]%string) "a"%string
                  <> canonical (new ["a"; "b"]%string) "b"%string)
      by (vm_compute; discriminate).
    exact (proj1 (proj2 (@add_override string string unit _ _)
                    (cnodes (new ["a"; "b"]%string)) tt tt "a"%string "b"%string Hab)).
Defined.

Lemma negative_stretch_warning_witness :
  unknowns squeezed = Returned [5; 2; -4]%Q
  /\ exists pos width,
      solve squeezed = ([NegativeStretch (-4)], Returned (pos, width))
      /\ (forall v, In v [(-4)%Q] -> (v < 0)%Q ->
                    In (NegativeStretch v) (fst (solve squeezed)))
      /\ (forall node, Dict.mem pos node = Dict.mem (cnodes squeezed) node).
Proof.
  split; [vm_compute; reflexivity|].
  assert (Hne : num_nodes squeezed <> 1) by (vm_compute; lia).
  assert (Hxx : unknowns squeezed = Returned [5; 2; -4]%Q) by (vm_compute; reflexivity).
  assert (Hs : skipn (num_nodes squeezed - 1) [5; 2; -4]%Q = [(-4)%Q])
    by (vm_compute; reflexivity).
  pose proof (negative_stretch_warning squeezed [5; 2; -4]%Q Hne Hxx) as Hw.
  rewrite Hs in Hw. exact Hw.
Defined.

Lemma add_atomic_on_failure_witness :
  snd (add two_nodes tt "a"%string "b"%string 7 false)
  = Raised (IncompatibleFixed 7 5)
  /\ fst (add two_nodes tt "a"%string "b"%string 7 false) = two_nodes.
Proof.
  split; [reflexivity|].
  apply (add_atomic_on_failure two_nodes tt "a"%string "b"%string 7 false 7 5).
  reflexivity.
Defined.

Lemma solve_single_node_witness :
  num_nodes single = 1
  /\ exists pos,
      solve single = ([], Returned (pos, 0%Q))
      /\ (forall node, Dict.mem (cnodes single) node = true ->
                       Dict.get pos node = Some 0%Q)
      /\ (forall node, Dict.mem (cnodes single) node = false ->
                       Dict.get pos node = None).
Proof.
  split; [reflexivity|].
  apply (solve_single_node single). reflexivity.
Defined.

Lemma add_reversed_equal_fixed_witness :
  add two_nodes tt "b"%string "a"%string 5 false
  = (two_nodes, Raised (IncompatibleFixed (-5) 5)).
Proof.
  apply (add_reversed_equal_fixed (new ["a"; "b"]%string) tt tt "a"%string "b"%string).
  - reflexivity.
  - reflexivity.
Defined.

(** * Further properties *)

Close Scope string_scope.

(** ** Dictionaries: keys *)

Section DictKeys.
Context {K V : Type} `{Hashable K}.
Implicit Types (d : Dict.t K V) (k : K) (v : V).

Lemma dict_mem_keys d k : Dict.mem d k = true <-> In k (Dict.keys d).
Proof.
  unfold Dict.keys. split.
  - intro Hm. apply dict_mem_get in Hm. destruct Hm as [v Hv].
    apply dict_get_in in Hv. apply (in_map fst) in Hv. exact Hv.
  - intro Hin. apply in_map_iff in Hin. destruct Hin as ([k' v] & Hk & Hin).
    simpl in Hk. subst k'. exact (dict_in_mem _ _ _ Hin).
Qed.

Lemma dict_keys_set d k v :
  Dict.keys (Dict.set d k v) = if Dict.mem d k then Dict.keys d else Dict.keys d ++ [k].
Proof.
  induction d as [|[k' v'] d IH]; simpl.
  - reflexivity.
  - rewrite dict_mem_cons. destruct (key_eq_dec k' k) as [Heq|Hne]; simpl.
    + reflexivity.
    + rewrite IH. destruct (Dict.mem d k); reflexivity.
Qed.

Lemma dict_set_same_value d k v : Dict.get d k = Some v -> Dict.set d k v = d.
Proof.
  induction d as [|[k' v'] d IH]; simpl; [discriminate|].
  destruct (key_eq_dec k' k) as [Heq|Hne]; intro Hg.
  - congruence.
  - now rewrite IH.
Qed.

Lemma dict_set_length d k v :
  length (Dict.set d k v) = if Dict.mem d k then length d else S (length d).
Proof.
  pose proof (dict_keys_set d k v) as Hk. apply (f_equal (@length K)) in Hk.
  unfold Dict.keys in Hk. rewrite length_map in Hk. rewrite Hk.
  destruct (Dict.mem d k).
  - apply length_map.
  - rewrite length_app, length_map. simpl. lia.
Qed.

End DictKeys.

(** ** Lineq.add: what a call does to the store *)

Section AddLaws.
Context {Node CNode Elt : Type} `{Hashable Node} `{Hashable CNode}.
Implicit Types (L : Lineq Node CNode) (n : Node) (elt : Elt).

Lemma Qeq_bool_opp (q : Q) : Qeq_bool (- q) 0 = Qeq_bool q 0.
Proof.
  destruct (Qeq_bool q 0) eqn:Hq.
  - apply Qeq_bool_iff in Hq. apply Qeq_bool_iff. rewrite Hq. reflexivity.
  - apply Qeq_bool_false in Hq. apply Qeq_bool_false. intro Hz. apply Hq.
    rewrite <- (Qopp_involutive q), Hz. reflexivity.
Qed.

Lemma orient_opp n1 n2 sz :
  ~ (sz == 0)%Q -> orient n2 n1 (- sz) = orient n1 n2 sz.
Proof.
  intro Hnz. unfold orient.
  destruct (Qltb sz 0) eqn:Hlt.
  - apply Qltb_lt in Hlt.
    assert (Hge : Qltb (- sz) 0 = false).
    { apply Qltb_ge. apply (Qopp_lt_compat sz 0) in Hlt. apply Qlt_le_weak. exact Hlt. }
    rewrite Hge. reflexivity.
  - apply Qltb_ge in Hlt.
    assert (Hpos : (0 < sz)%Q).
    { apply Qle_lteq in Hlt. destruct Hlt as [Hlt|Heq]; [exact Hlt|].
      exfalso. apply Hnz. symmetry. exact Heq. }
    assert (Hneg : Qltb (- sz) 0 = true).
    { apply Qltb_lt. apply (Qopp_lt_compat 0 sz) in Hpos. exact Hpos. }
    rewrite Hneg, Qopp_opp_eq. reflexivity.
Qed.

(** X1: a request of size [sz] from [n1] to [n2] and the request of size
    [- sz] from [n2] to [n1] are one and the same call: same object
    afterwards, same outcome. *)
Theorem add_reversed_negated L elt n1 n2 sz st :
  add L elt n2 n1 (- sz) st = add L elt n1 n2 sz st.
Proof.
  unfold add. rewrite Qeq_bool_opp.
  destruct (Qeq_bool sz 0) eqn:Hz; [reflexivity|].
  apply Qeq_bool_false in Hz. rewrite (orient_opp n1 n2 sz Hz). reflexivity.
Qed.

(** The ways a call can end: nothing stored, or the request stored under
    the key it was resolved against. *)
Lemma add_cases L elt n1 n2 sz st :
  fst (add L elt n1 n2 sz st) = L
  \/ exists m1 m2 s key s',
      ~ (sz == 0)%Q
      /\ orient n1 n2 sz = (m1, m2, s)
      /\ stored_key L (canonical L m1) (canonical L m2) s = (key, s')
      /\ add L elt n1 n2 sz st
         = (with_constraints L (Dict.set (constraints L) key (mkConstraint s' st)),
            Returned tt)
      /\ (Dict.mem (constraints L) key = false ->
          Dict.mem (constraints L) (canonical L m1, canonical L m2) = false
          /\ Dict.mem (constraints L) (canonical L m2, canonical L m1) = false).
Proof.
  destruct (Qeq_bool sz 0) eqn:Hz.
  { left. unfold add. rewrite Hz. reflexivity. }
  apply Qeq_bool_false in Hz.
  destruct (orient n1 n2 sz) as [[m1 m2] s] eqn:Ho.
  destruct (stored_key L (canonical L m1) (canonical L m2) s) as [key s'] eqn:Hk.
  destruct (Dict.get (constraints L) key) as [ex|] eqn:Hg.
  - rewrite (add_existing L elt n1 n2 sz st m1 m2 s key s' ex Hz Ho Hk Hg).
    assert (Hm : Dict.mem (constraints L) key = true) by (apply dict_mem_get; eauto).
    destruct (negb (stretch ex));
      [destruct (negb st && negb (Qeq_bool (size ex) s'))
      |destruct (Qltb (Qabs (size ex)) (Qabs s'))];
      simpl; auto;
      right; exists m1, m2, s, key, s'; repeat split; auto; congruence.
  - apply dict_mem_false in Hg.
    assert (Hfresh : Dict.mem (constraints L) (canonical L m1, canonical L m2) = false
                     /\ Dict.mem (constraints L) (canonical L m2, canonical L m1) = false).
    { unfold stored_key in Hk.
      destruct (Dict.mem (constraints L) (canonical L m2, canonical L m1)) eqn:Hk2;
        inversion Hk; subst; [congruence|auto]. }
    destruct Hfresh as [Hk1 Hk2].
    right. exists m1, m2, s, key, s'.
    rewrite (add_fresh L elt n1 n2 sz st m1 m2 s Hz Ho Hk1 Hk2).
    assert (Hk' := Hk). unfold stored_key in Hk'. rewrite Hk2 in Hk'.
    inversion Hk'; subst.
    repeat split; auto.
Qed.

Lemma add_keeps_cnodes L elt n1 n2 sz st :
  cnodes (fst (add L elt n1 n2 sz st)) = cnodes L.
Proof.
  destruct (add_cases L elt n1 n2 sz st)
    as [->|(m1 & m2 & s & key & s' & _ & _ & _ & -> & _)]; reflexivity.
Qed.

Lemma canonical_same_cnodes L L' n : cnodes L' = cnodes L -> canonical L' n = canonical L n.
Proof.
  intro Hc. unfold canonical. now rewrite Hc.
Qed.

Lemma with_constraints_same L : with_constraints L (constraints L) = L.
Proof.
  destruct L. reflexivity.
Qed.

(** A request that finds itself in the store changes nothing. *)
Lemma add_finds_itself L elt n1 n2 sz st m1 m2 s key s' :
  ~ (sz == 0)%Q ->
  orient n1 n2 sz = (m1, m2, s) ->
  stored_key L (canonical L m1) (canonical L m2) s = (key, s') ->
  Dict.get (constraints L) key = Some (mkConstraint s' st) ->
  add L elt n1 n2 sz st = (L, Returned tt).
Proof.
  intros Hnz Ho Hk Hg.
  rewrite (add_existing L elt n1 n2 sz st m1 m2 s key s' _ Hnz Ho Hk Hg). simpl.
  assert (Heq : Qeq_bool s' s' = true) by (apply Qeq_bool_iff; reflexivity).
  assert (Hlt : Qltb (Qabs s') (Qabs s') = false) by (apply Qltb_ge, Qle_refl).
  rewrite Heq, Hlt, andb_false_r.
  rewrite (dict_set_same_value _ _ _ Hg), with_constraints_same.
  destruct st; reflexivity.
Qed.

(** X2: a call repeated leaves the store as the first call left it,
    whether it stored its request, dropped it or raised. *)
Theorem add_twice L elt elt' n1 n2 sz st :
  fst (add (fst (add L elt n1 n2 sz st)) elt' n1 n2 sz st)
  = fst (add L elt n1 n2 sz st).
Proof.
  destruct (add_cases L elt n1 n2 sz st)
    as [Hsame|(m1 & m2 & s & key & s' & Hnz & Ho & Hk & Hadd & _)].
  - rewrite Hsame. exact Hsame.
  - rewrite Hadd. cbn [fst].
    set (c := mkConstraint s' st).
    set (L1 := with_constraints L (Dict.set (constraints L) key c)).
    assert (Hg : Dict.get (constraints L1) key = Some c) by apply dict_get_set_same.
    assert (Hc : forall n, canonical L1 n = canonical L n)
      by (intro n; apply canonical_same_cnodes; reflexivity).
    pose proof (orient_nonzero n1 n2 sz m1 m2 s Hnz Ho) as Hpos.
    assert (Hk1 : stored_key L1 (canonical L1 m1) (canonical L1 m2) s = (key, s')
                  \/ (stored_key L1 (canonical L1 m1) (canonical L1 m2) s = (key, (- s)%Q)
                      /\ s' = s)).
    { assert (Hm1 : Dict.mem (constraints L1) (canonical L m2, canonical L m1)
                    = if key_eq_dec key (canonical L m2, canonical L m1) then true
                      else Dict.mem (constraints L) (canonical L m2, canonical L m1))
        by apply dict_mem_set.
      rewrite !Hc. unfold stored_key in *. rewrite Hm1.
      destruct (Dict.mem (constraints L) (canonical L m2, canonical L m1)) eqn:Hm.
      - left. inversion Hk; subst.
        destruct (key_eq_dec _ _); reflexivity.
      - inversion Hk; subst.
        destruct (key_eq_dec _ _) as [Heq|Hne]; [right|left; reflexivity].
        split; [|reflexivity]. rewrite Heq. reflexivity. }
    destruct Hk1 as [Hk1|[Hk1 ->]].
    + rewrite (add_finds_itself L1 elt' n1 n2 sz st m1 m2 s key s' Hnz Ho Hk1 Hg).
      reflexivity.
    + rewrite (add_existing L1 elt' n1 n2 sz st m1 m2 s key (- s)%Q c Hnz Ho Hk1 Hg).
      subst c. cbn [stretch size].
      assert (Hne : Qeq_bool s (- s) = false).
      { apply Qeq_bool_false. intro Heq.
        assert (Hneg : (- s < 0)%Q) by (apply (Qopp_lt_compat 0 s); exact Hpos).
        rewrite <- Heq in Hneg. exact (Qlt_irrefl _ (Qlt_trans _ _ _ Hpos Hneg)). }
      assert (Hlt : Qltb (Qabs s) (Qabs (- s)) = false).
      { apply Qltb_ge. rewrite Qabs_opp. apply Qle_refl. }
      rewrite Hne, Hlt. destruct st; reflexivity.
Qed.

(** The key a request is resolved against is the pair one way or the
    other. *)
Lemma stored_key_cases L (v1 v2 : Vertex Node CNode) s key s' :
  stored_key L v1 v2 s = (key, s') -> key = (v1, v2) \/ key = (v2, v1).
Proof.
  unfold stored_key. destruct (Dict.mem _ _); intro Heq; inversion Heq; auto.
Qed.

Lemma add_keeps_pairs_unique L elt n1 n2 sz st :
  pairs_unique (constraints L) ->
  pairs_unique (constraints (fst (add L elt n1 n2 sz st))).
Proof.
  intros [Hnd Hrev].
  destruct (add_cases L elt n1 n2 sz st)
    as [->|(m1 & m2 & s & key & s' & Hnz & Ho & Hk & -> & Hfresh)]; [split; assumption|].
  cbn [fst constraints with_constraints]. unfold pairs_unique.
  rewrite dict_keys_set.
  destruct (Dict.mem (constraints L) key) eqn:Hm; [split; assumption|].
  destruct (Hfresh eq_refl) as [Hk1 Hk2].
  assert (Hkey : key = (canonical L m1, canonical L m2)).
  { unfold stored_key in Hk. rewrite Hk2 in Hk. inversion Hk; reflexivity. }
  assert (Hn1 : ~ In (canonical L m1, canonical L m2) (Dict.keys (constraints L))).
  { intro Hin. apply dict_mem_keys in Hin. exact (eq_true_false_abs _ Hin Hk1). }
  assert (Hn2 : ~ In (canonical L m2, canonical L m1) (Dict.keys (constraints L))).
  { intro Hin. apply dict_mem_keys in Hin. exact (eq_true_false_abs _ Hin Hk2). }
  subst key. split.
  - apply NoDup_app; [exact Hnd|constructor; [intros []|constructor]|].
    intros k Hin [<-|[]]. contradiction.
  - intros v1 v2 Hin1 Hin2.
    apply in_app_or in Hin1. apply in_app_or in Hin2.
    destruct Hin1 as [Hin1|[Heq1|[]]], Hin2 as [Hin2|[Heq2|[]]].
    + exact (Hrev v1 v2 Hin1 Hin2).
    + inversion Heq2; subst. contradiction.
    + inversion Heq1; subst. contradiction.
    + inversion Heq1; subst. inversion Heq2; subst. reflexivity.
Qed.

(** X3: however the store was built by [add] from an empty one, it holds
    no key twice, and never a pair under both [(a, b)] and [(b, a)]. *)
Theorem pairs_unique_after_calls (cn : Cnodes) (calls : list (call Node Elt)) :
  pairs_unique (constraints (after_calls (mkLineq cn []) calls)).
Proof.
  assert (Hgen : forall (calls : list (call Node Elt)) L,
             pairs_unique (constraints L) ->
             pairs_unique (constraints (after_calls L calls))).
  { clear. induction calls as [|c calls IH]; intros L HL; [exact HL|].
    simpl. apply IH. apply add_keeps_pairs_unique. exact HL. }
  apply Hgen. split; [constructor|]. intros v1 v2 [].
Qed.

(** X4: a call leaves the constraint of every other pair as it was: a key
    that is not the call's pair, one way or the other, has the same entry
    before and after, and [self.cnodes] is not touched. *)
Theorem add_frame L elt n1 n2 sz st key :
  key <> (canonical L n1, canonical L n2) ->
  key <> (canonical L n2, canonical L n1) ->
  Dict.get (constraints (fst (add L elt n1 n2 sz st))) key
  = Dict.get (constraints L) key
  /\ cnodes (fst (add L elt n1 n2 sz st)) = cnodes L.
Proof.
  intros H12 H21. split; [|apply add_keeps_cnodes].
  destruct (add_cases L elt n1 n2 sz st)
    as [->|(m1 & m2 & s & key' & s' & Hnz & Ho & Hk & -> & _)]; [reflexivity|].
  cbn [fst constraints with_constraints].
  apply dict_get_set_other.
  assert (Hm : (m1 = n1 /\ m2 = n2) \/ (m1 = n2 /\ m2 = n1)).
  { unfold orient in Ho. destruct (Qltb sz 0); inversion Ho; auto. }
  destruct (stored_key_cases _ _ _ _ _ _ Hk) as [->| ->];
    destruct Hm as [[-> ->]|[-> ->]]; congruence.
Qed.

Lemma add_keeps_keys L elt n1 n2 sz st key :
  Dict.mem (constraints L) key = true ->
  Dict.mem (constraints (fst (add L elt n1 n2 sz st))) key = true.
Proof.
  destruct (add_cases L elt n1 n2 sz st)
    as [->|(m1 & m2 & s & key' & s' & Hnz & Ho & Hk & -> & _)]; [auto|].
  cbn [fst constraints with_constraints].
  intro Hm. rewrite dict_mem_set. destruct (key_eq_dec key' key); auto.
Qed.

(** X5: a call never removes a key, and the store has afterwards as many
    entries as before, or one more. *)
Theorem add_grows L elt n1 n2 sz st :
  (forall key, Dict.mem (constraints L) key = true ->
               Dict.mem (constraints (fst (add L elt n1 n2 sz st))) key = true)
  /\ (length (constraints (fst (add L elt n1 n2 sz st))) = length (constraints L)
      \/ length (constraints (fst (add L elt n1 n2 sz st))) = S (length (constraints L))).
Proof.
  split; [intros key Hm; apply add_keeps_keys; exact Hm|].
  destruct (add_cases L elt n1 n2 sz st)
    as [->|(m1 & m2 & s & key' & s' & Hnz & Ho & Hk & -> & _)]; [auto|].
  cbn [fst constraints with_constraints].
  rewrite dict_set_length. destruct (Dict.mem (constraints L) key'); auto.
Qed.

Lemma canonical_known L n :
  Dict.mem (cnodes L) n = true -> vertex_known (cnodes L) (canonical L n).
Proof.
  intro Hm. apply dict_mem_get in Hm. destruct Hm as [c Hc].
  unfold canonical. rewrite Hc. exists n, c. split; [reflexivity|].
  exact (dict_get_in _ _ _ Hc).
Qed.

Lemma add_keeps_vertices_known L elt n1 n2 sz st :
  Dict.mem (cnodes L) n1 = true ->
  Dict.mem (cnodes L) n2 = true ->
  vertices_known L ->
  vertices_known (fst (add L elt n1 n2 sz st)).
Proof.
  intros Hn1 Hn2 HL.
  destruct (add_cases L elt n1 n2 sz st)
    as [->|(m1 & m2 & s & key' & s' & Hnz & Ho & Hk & -> & _)]; [exact HL|].
  unfold vertices_known. cbn [fst constraints cnodes with_constraints].
  intros key Hin. rewrite dict_keys_set in Hin.
  assert (Hnew : vertex_known (cnodes L) (fst key') /\ vertex_known (cnodes L) (snd key')).
  { assert (Hm : (m1 = n1 /\ m2 = n2) \/ (m1 = n2 /\ m2 = n1)).
    { unfold orient in Ho. destruct (Qltb sz 0); inversion Ho; auto. }
    destruct (stored_key_cases _ _ _ _ _ _ Hk) as [->| ->];
      destruct Hm as [[-> ->]|[-> ->]]; split; apply canonical_known; assumption. }
  destruct (Dict.mem (constraints L) key'); [exact (HL key Hin)|].
  apply in_app_or in Hin. destruct Hin as [Hin|[<-|[]]]; [exact (HL key Hin)|exact Hnew].
Qed.

(** X6: when every call names nodes of [self.cnodes], every key of the
    store is made of canonical nodes of [self.cnodes]. *)
Theorem vertices_known_after_calls (cn : Cnodes) (calls : list (call Node Elt)) :
  Forall (fun c => Dict.mem cn (call_n1 c) = true /\ Dict.mem cn (call_n2 c) = true)
         calls ->
  vertices_known (after_calls (mkLineq cn []) calls).
Proof.
  assert (Hgen : forall (calls : list (call Node Elt)) L,
             Forall (fun c => Dict.mem (cnodes L) (call_n1 c) = true
                              /\ Dict.mem (cnodes L) (call_n2 c) = true) calls ->
             vertices_known L ->
             vertices_known (after_calls L calls)).
  { clear. induction calls as [|c calls IH]; intros L Hall HL; [exact HL|].
    simpl. inversion Hall as [|c' calls' [Hc1 Hc2] Hrest]; subst.
    apply IH.
    - unfold add_call. rewrite add_keeps_cnodes. exact Hrest.
    - apply add_keeps_vertices_known; assumption. }
  intro Hall. apply Hgen; [exact Hall|]. intros key [].
Qed.

(** X16: the one way [add] raises: the request is fixed, the constraint
    stored for the pair is fixed, and its size differs from the size of the
    request as seen from the stored key: the size [sz] of the call under the
    key [(n1, n2)], its opposite [- sz] under the reversed key [(n2, n1)]
    (should the store hold both keys, the sign of [sz] tells which one is
    looked up).  The error carries these two sizes.  A stretchy request
    never raises. *)
Theorem add_raises_only_incompatible L elt n1 n2 sz st e :
  snd (add L elt n1 n2 sz st) = Raised e ->
  st = false
  /\ ~ (sz == 0)%Q
  /\ exists key ex incoming,
      ((key = (canonical L n1, canonical L n2) /\ incoming = sz
        /\ (Dict.mem (constraints L) (canonical L n2, canonical L n1) = false
            \/ (sz < 0)%Q))
       \/ (key = (canonical L n2, canonical L n1) /\ incoming = (- sz)%Q
           /\ (Dict.mem (constraints L) (canonical L n1, canonical L n2) = false
               \/ (0 < sz)%Q)))
      /\ Dict.get (constraints L) key = Some ex
      /\ stretch ex = false
      /\ ~ (size ex == incoming)%Q
      /\ e = IncompatibleFixed incoming (size ex).
Proof.
  intro Hr.
  destruct (Qeq_bool sz 0) eqn:Hz.
  { unfold add in Hr. rewrite Hz in Hr. discriminate. }
  apply Qeq_bool_false in Hz.
  destruct (orient n1 n2 sz) as [[m1 m2] s] eqn:Ho.
  destruct (stored_key L (canonical L m1) (canonical L m2) s) as [key s'] eqn:Hk.
  pose proof (add_resolution L n1 n2 sz m1 m2 s key s' Hz Ho Hk) as Hres.
  destruct (Dict.get (constraints L) key) as [ex|] eqn:Hg.
  - rewrite (add_existing L elt n1 n2 sz st m1 m2 s key s' ex Hz Ho Hk Hg) in Hr.
    destruct (stretch ex) eqn:Hex; cbn [negb] in Hr.
    { destruct (Qltb (Qabs (size ex)) (Qabs s')); discriminate. }
    destruct st; cbn [negb andb] in Hr; [discriminate|].
    destruct (Qeq_bool (size ex) s') eqn:Hq; cbn [negb] in Hr; [discriminate|].
    apply Qeq_bool_false in Hq. split; [reflexivity|]. split; [exact Hz|].
    exists key, ex, s'. cbn [snd] in Hr. inversion Hr. auto 6.
  - exfalso. apply dict_mem_false in Hg.
    assert (Hfresh : Dict.mem (constraints L) (canonical L m1, canonical L m2) = false
                     /\ Dict.mem (constraints L) (canonical L m2, canonical L m1) = false).
    { unfold stored_key in Hk.
      destruct (Dict.mem (constraints L) (canonical L m2, canonical L m1)) eqn:Hk2;
        inversion Hk; subst; [congruence|auto]. }
    destruct Hfresh as [Hk1 Hk2].
    rewrite (add_fresh L elt n1 n2 sz st m1 m2 s Hz Ho Hk1 Hk2) in Hr. discriminate.
Qed.

End AddLaws.

(** ** Lineq.solve: the node indexer, again *)

Section SolveLaws.
Context {Node CNode : Type} `{Hashable Node} `{Hashable CNode}.
Implicit Types (L : Lineq Node CNode) (cnode_map : Dict.t CNode nat).





(** ** Lineq.solve: the system *)

Lemma count_stretches_cons (kc : @Key Node CNode * Constraint) (cs : Constraints) :
  count_stretches (kc :: cs)
  = (if stretch (snd kc) then 1 else 0) + count_stretches cs.
Proof.
  unfold count_stretches. simpl.
  assert (Hacc : forall (l : @Constraints Node CNode) n,
             fold_left (fun n kc => if stretch (snd kc) then S n else n) l n
             = n + fold_left (fun n kc => if stretch (snd kc) then S n else n) l 0).
  { induction l as [|x l IH]; intro n; simpl; [lia|].
    rewrite (IH (if stretch (snd x) then S n else n)).
    rewrite (IH (if stretch (snd x) then 1 else 0)).
    destruct (stretch (snd x)); lia. }
  rewrite Hacc. reflexivity.
Qed.

Lemma vertex_index_cases cnode_map (v : Vertex Node CNode) :
  (exists c m, v = Canon c /\ Dict.get cnode_map c = Some m
               /\ vertex_index cnode_map v = Returned m)
  \/ vertex_index cnode_map v = Raised KeyError.
Proof.
  destruct v as [n|c]; simpl; [auto|].
  destruct (Dict.get cnode_map c) as [m|] eqn:Hg; simpl; [|auto].
  left. exists c, m. auto.
Qed.

Lemma list_set_length {A : Type} (l l' : list A) i v :
  list_set l i v = Some l' -> length l' = length l.
Proof.
  intro Hs. exact (proj1 (list_set_spec l i v l' Hs)).
Qed.

(** Built on a table whose indices are below [Nnodes], with room for the
    stretch columns, the system either has one row of [Nunknowns + 1]
    entries for each constraint, the last of them its size, or one of the
    keys has a vertex without index and the build raises KeyError. *)
Lemma build_rows_cases cnode_map (Nnodes Nunknowns : nat)
    (items : @Constraints Node CNode) :
  forall s,
    (forall c m, Dict.get cnode_map c = Some m -> m < Nnodes) ->
    1 <= Nnodes ->
    s + count_stretches items + Nnodes <= S Nunknowns ->
    (exists W, build_rows cnode_map Nnodes Nunknowns items s = Returned W
               /\ has_shape W (length items) (S Nunknowns)
               /\ map (fun row => last row 0%Q) W = map (fun kc => size (snd kc)) items
               /\ keys_indexed cnode_map items)
    \/ (build_rows cnode_map Nnodes Nunknowns items s = Raised KeyError
        /\ ~ keys_indexed cnode_map items).
Proof.
  induction items as [|[key c] items IH]; intros s Hb Hn Hroom.
  - left. exists []. split; [reflexivity|]. split; [split; [reflexivity|constructor]|].
    split; [reflexivity|]. intros k0 [].
  - rewrite count_stretches_cons in Hroom. simpl in Hroom.
    assert (Hhead : forall P : Prop,
               ~ ((exists i, vertex_index cnode_map (fst key) = Returned i)
                  /\ (exists j, vertex_index cnode_map (snd key) = Returned j)) ->
               ~ keys_indexed cnode_map ((key, c) :: items)).
    { intros _ Hno Hall. apply Hno. apply (Hall key). left. reflexivity. }
    simpl.
    destruct (vertex_index_cases cnode_map (fst key))
      as [(c1 & m1 & _ & Hg1 & Hv1)|Hv1]; rewrite Hv1.
    2:{ right. split; [reflexivity|]. apply (Hhead True).
        intros [[i Hi] _]. rewrite Hv1 in Hi. discriminate. }
    destruct (vertex_index_cases cnode_map (snd key))
      as [(c2 & m2 & _ & Hg2 & Hv2)|Hv2]; rewrite Hv2.
    2:{ right. split; [reflexivity|]. apply (Hhead True).
        intros [_ [j Hj]]. rewrite Hv2 in Hj. discriminate. }
    simpl.
    pose proof (Hb _ _ Hg1) as Hm1. pose proof (Hb _ _ Hg2) as Hm2.
    assert (Hr1 : exists row1,
               (if Nat.eqb m1 0 then Returned (zeros Nunknowns)
                else of_option IndexError (list_set (zeros Nunknowns) (m1 - 1) (-1)%Q))
               = @Returned (exn CNode) _ row1 /\ length row1 = Nunknowns).
    { destruct (Nat.eqb m1 0) eqn:Hz.
      - eexists. split; [reflexivity|]. apply repeat_length.
      - apply Nat.eqb_neq in Hz.
        destruct (list_set_some (zeros Nunknowns) (m1 - 1) (-1)%Q) as [row1 Hrow1].
        + unfold zeros. rewrite repeat_length. lia.
        + exists row1. rewrite Hrow1. split; [reflexivity|].
          rewrite (list_set_length _ _ _ _ Hrow1). apply repeat_length. }
    destruct Hr1 as (row1 & -> & Hlen1). simpl.
    assert (Hr2 : exists row2,
               (if Nat.eqb m2 0 then Returned row1
                else of_option IndexError (list_set row1 (m2 - 1) 1%Q))
               = @Returned (exn CNode) _ row2 /\ length row2 = Nunknowns).
    { destruct (Nat.eqb m2 0) eqn:Hz.
      - eexists. split; [reflexivity|exact Hlen1].
      - apply Nat.eqb_neq in Hz.
        destruct (list_set_some row1 (m2 - 1) 1%Q) as [row2 Hrow2]; [lia|].
        exists row2. rewrite Hrow2. split; [reflexivity|].
        rewrite (list_set_length _ _ _ _ Hrow2). exact Hlen1. }
    destruct Hr2 as (row2 & -> & Hlen2). simpl.
    assert (Hr3 : exists row3 s',
               (if stretch c
                then row' <- of_option IndexError
                               (list_set row2 (s + Nnodes - 1) (-1)%Q) ;;
                     Returned (row', S s)
                else Returned (row2, s))
               = @Returned (exn CNode) _ (row3, s')
               /\ length row3 = Nunknowns
               /\ s' + count_stretches items + Nnodes <= S Nunknowns).
    { destruct (stretch c) eqn:Hst.
      - destruct (list_set_some row2 (s + Nnodes - 1) (-1)%Q) as [row3 Hrow3]; [lia|].
        exists row3, (S s). rewrite Hrow3. simpl. split; [reflexivity|].
        split; [|lia]. rewrite (list_set_length _ _ _ _ Hrow3). exact Hlen2.
      - exists row2, s. split; [reflexivity|]. split; [exact Hlen2|lia]. }
    destruct Hr3 as (row3 & s' & -> & Hlen3 & Hroom'). simpl.
    destruct (IH s' Hb Hn Hroom') as [(W & -> & [HWl HWr] & Hlast & Hall)|[-> Hno]].
    + left. simpl. eexists. split; [reflexivity|]. split; [|split].
      * split; [simpl; now rewrite HWl|].
        constructor; [rewrite length_app; simpl; lia|exact HWr].
      * simpl. rewrite last_last, Hlast. reflexivity.
      * intros key' [<-|Hin]; [split; eauto|]. exact (Hall key' Hin).
    + right. split; [reflexivity|]. intro Hall. apply Hno.
      intros key' Hin. apply Hall. right. exact Hin.
Qed.

Lemma indexed_bounded L :
  forall c m, Dict.get (fst (fst (index_cnodes (cnodes L) [] [] 0))) c = Some m ->
              m < num_nodes L.
Proof.
  assert (Hb0 : indices_bounded ([] : Dict.t CNode nat)) by (intros c' m'; discriminate).
  destruct (index_cnodes_spec (cnodes L) [] [] 0 eq_refl Hb0) as (Hb & _ & _).
  exact Hb.
Qed.

Lemma vertices_known_indexed L :
  vertices_known L ->
  keys_indexed (fst (fst (index_cnodes (cnodes L) [] [] 0))) (constraints L).
Proof.
  intros HL key Hin.
  assert (Hb0 : indices_bounded ([] : Dict.t CNode nat)) by (intros c' m'; discriminate).
  destruct (index_cnodes_spec (cnodes L) [] [] 0 eq_refl Hb0) as (_ & _ & Hall).
  assert (Hv : forall v, vertex_known (cnodes L) v ->
                         exists i, vertex_index
                                     (fst (fst (index_cnodes (cnodes L) [] [] 0))) v
                                   = Returned i).
  { intros v (node & c & -> & Hc). simpl.
    pose proof (Hall node c Hc) as Hm. apply dict_mem_get in Hm.
    destruct Hm as [i Hi]. exists i. rewrite Hi. reflexivity. }
  destruct (HL key Hin) as [H1 H2]. split; apply Hv; assumption.
Qed.

Lemma system_built L :
  vertices_known L ->
  1 <= num_nodes L ->
  exists W,
    build_rows (fst (fst (index_cnodes (cnodes L) [] [] 0))) (num_nodes L)
               (num_nodes L + count_stretches (constraints L) - 1) (constraints L) 0
    = Returned W
    /\ has_shape W (length (constraints L))
                 (num_nodes L + count_stretches (constraints L))
    /\ map (fun row => last row 0%Q) W = map (fun kc => size (snd kc)) (constraints L).
Proof.
  intros HL Hn.
  destruct (build_rows_cases (fst (fst (index_cnodes (cnodes L) [] [] 0))) (num_nodes L)
              (num_nodes L + count_stretches (constraints L) - 1) (constraints L) 0
              (indexed_bounded L) Hn)
    as [(W & HW & Hshape & Hlast & _)|[_ Hno]]; [lia| |].
  - exists W. split; [exact HW|]. split; [|exact Hlast].
    replace (num_nodes L + count_stretches (constraints L))
      with (S (num_nodes L + count_stretches (constraints L) - 1)) by lia.
    exact Hshape.
  - exfalso. apply Hno. apply vertices_known_indexed. exact HL.
Qed.

(** X8: when every key of the store is made of canonical nodes of
    [self.cnodes], the system is built without error: [W] has one row for
    each constraint, each of [Nnodes - 1 + Nstretches + 1] entries, and its
    last column holds the sizes in the order of the store. *)
Theorem system_shape L :
  vertices_known L ->
  1 <= num_nodes L ->
  exists W,
    build_rows (fst (fst (index_cnodes (cnodes L) [] [] 0))) (num_nodes L)
               (num_nodes L + count_stretches (constraints L) - 1) (constraints L) 0
    = Returned W
    /\ has_shape W (length (constraints L))
                 (num_nodes L + count_stretches (constraints L))
    /\ map (fun row => last row 0%Q) W = map (fun kc => size (snd kc)) (constraints L).
Proof.
  exact (system_built L).
Qed.

Lemma solve_key_error L :
  2 <= num_nodes L ->
  ~ keys_indexed (fst (fst (index_cnodes (cnodes L) [] [] 0))) (constraints L) ->
  solve L = ([], Raised KeyError).
Proof.
  intros Hn Hno. rewrite solve_eq. cbv zeta.
  destruct (Nat.eqb (num_nodes L) 1) eqn:Hone; [apply Nat.eqb_eq in Hone; lia|].
  unfold unknowns, num_nodes in *.
  destruct (index_cnodes (cnodes L) [] [] 0) as [[cnode_map cnode_imap] num] eqn:Hidx.
  cbn [fst snd] in *. unfold solve_unknowns.
  destruct (Nat.eqb (length cnode_map + count_stretches (constraints L)) 0) eqn:Hz;
    [apply Nat.eqb_eq in Hz; lia|].
  pose proof (indexed_bounded L) as Hb. unfold num_nodes in Hb. rewrite Hidx in Hb.
  cbn [fst] in Hb.
  destruct (build_rows_cases cnode_map (length cnode_map)
              (length cnode_map + count_stretches (constraints L) - 1) (constraints L) 0
              Hb) as [(W & _ & _ & _ & Hall)|[-> _]]; [lia|lia|contradiction|reflexivity].
Qed.

Lemma add_pair_present {Elt : Type} L (elt : Elt) n1 n2 sz st :
  ~ (sz == 0)%Q ->
  let cs := constraints (fst (add L elt n1 n2 sz st)) in
  Dict.mem cs (canonical L n1, canonical L n2) = true
  \/ Dict.mem cs (canonical L n2, canonical L n1) = true.
Proof.
  intros Hnz cs. subst cs.
  destruct (orient n1 n2 sz) as [[m1 m2] s] eqn:Ho.
  assert (Hm : (m1 = n1 /\ m2 = n2) \/ (m1 = n2 /\ m2 = n1)).
  { unfold orient in Ho. destruct (Qltb sz 0); inversion Ho; auto. }
  assert (Hgoal : Dict.mem (constraints (fst (add L elt n1 n2 sz st)))
                    (canonical L m1, canonical L m2) = true
                  \/ Dict.mem (constraints (fst (add L elt n1 n2 sz st)))
                       (canonical L m2, canonical L m1) = true).
  { destruct (Dict.mem (constraints L) (canonical L m2, canonical L m1)) eqn:Hk2.
    - right. apply add_keeps_keys. exact Hk2.
    - destruct (Dict.mem (constraints L) (canonical L m1, canonical L m2)) eqn:Hk1.
      + left. apply add_keeps_keys. exact Hk1.
      + left. rewrite (add_fresh L elt n1 n2 sz st m1 m2 s Hnz Ho Hk1 Hk2).
        cbn [fst constraints with_constraints]. rewrite dict_mem_set.
        destruct (key_eq_dec _ _); [reflexivity|contradiction]. }
  destruct Hm as [[-> ->]|[-> ->]]; tauto.
Qed.

(** X9: a call of non-zero size that names a node missing from
    [self.cnodes] leaves a key that [solve] cannot index: with two canonical
    nodes or more, [solve] then raises KeyError. *)
Theorem solve_after_unknown_node {Elt : Type} L (elt : Elt) n1 n2 sz st :
  2 <= num_nodes L ->
  ~ (sz == 0)%Q ->
  Dict.mem (cnodes L) n1 = false \/ Dict.mem (cnodes L) n2 = false ->
  solve (fst (add L elt n1 n2 sz st)) = ([], Raised KeyError).
Proof.
  intros Hn Hnz Hmiss.
  set (L' := fst (add L elt n1 n2 sz st)).
  assert (Hc : cnodes L' = cnodes L) by apply add_keeps_cnodes.
  assert (Hraw : exists n, (canonical L n1 = Raw n \/ canonical L n2 = Raw n)).
  { destruct Hmiss as [Hm|Hm]; apply dict_mem_false in Hm.
    - exists n1. left. unfold canonical. rewrite Hm. reflexivity.
    - exists n2. right. unfold canonical. rewrite Hm. reflexivity. }
  destruct Hraw as [n Hraw].
  apply solve_key_error.
  - unfold num_nodes in *. rewrite Hc. exact Hn.
  - intro Hall.
    assert (Hbad : forall key, In key (Dict.keys (constraints L')) ->
                               fst key = Raw n \/ snd key = Raw n -> False).
    { intros key Hin Hk. destruct (Hall key Hin) as [[i Hi] [j Hj]].
      destruct Hk as [Hk|Hk]; [rewrite Hk in Hi|rewrite Hk in Hj]; discriminate. }
    destruct (add_pair_present L elt n1 n2 sz st Hnz) as [Hp|Hp];
      apply dict_mem_keys in Hp; apply (Hbad _ Hp); simpl; tauto.
Qed.

(** ** Lineq.solve: the positions *)

(** What the loop filling [pos] leaves: for a node it went over, the
    coordinate of the node's index; for any other node, what was there. *)
Lemma place_spec L (coord : nat -> result Q) cnode_map (items : list (Node * CNode)) :
  forall (pos pos' : Dict.t Node Q),
    place coord L cnode_map items pos = Returned pos' ->
    forall node,
      (In node (Dict.keys items) ->
       exists m q, node_index L cnode_map node = Returned m
                   /\ coord m = Returned q /\ Dict.get pos' node = Some q)
      /\ (~ In node (Dict.keys items) -> Dict.get pos' node = Dict.get pos node).
Proof.
  induction items as [|[node0 c0] items IH]; intros pos pos' Hrun node.
  - simpl in Hrun. inversion Hrun; subst. split; [intros []|reflexivity].
  - simpl in Hrun.
    apply bind_returned in Hrun. destruct Hrun as (m0 & Hm0 & Hrun).
    apply bind_returned in Hrun. destruct Hrun as (q0 & Hq0 & Hrun).
    destruct (IH _ _ Hrun node) as [Hin Hout].
    destruct (in_dec key_eq_dec node (Dict.keys items)) as [Hi|Hni].
    + split; [intros _; exact (Hin Hi)|]. intro Hno. exfalso. apply Hno. right. exact Hi.
    + rewrite (Hout Hni). destruct (key_eq_dec node0 node) as [->|Hne].
      * rewrite dict_get_set_same. split; [|intro Hno; exfalso; apply Hno; left; reflexivity].
        intros _. exists m0, q0. auto.
      * rewrite dict_get_set_other by exact Hne. split; [|reflexivity].
        intros [Heq|Hi]; [contradiction|contradiction].
Qed.







(** How a returning [solve] got its result. *)
Lemma solve_returned_cases L w pos width :
  solve L = (w, Returned (pos, width)) ->
  let cnode_map := fst (fst (index_cnodes (cnodes L) [] [] 0)) in
  (num_nodes L = 1 /\ w = [] /\ width = 0%Q
   /\ place (fun _ => Returned 0%Q) L cnode_map (cnodes L) [] = Returned pos)
  \/ (num_nodes L <> 1
      /\ exists xx minx maxx,
          let x := firstn (num_nodes L - 1) xx in
          unknowns L = Returned xx
          /\ w = negative_stretches (num_nodes L) xx
          /\ np_min x = @Returned (exn CNode) Q minx
          /\ np_max x = @Returned (exn CNode) Q maxx
          /\ width = Qred (maxx - minx)
          /\ place (coordinate x minx) L cnode_map (cnodes L) [] = Returned pos).
Proof.
  intros Hs cnode_map. rewrite solve_eq in Hs. cbv zeta in Hs. fold cnode_map in Hs.
  destruct (Nat.eqb (num_nodes L) 1) eqn:Hone.
  - apply Nat.eqb_eq in Hone. left. injection Hs as Hw Hr.
    apply bind_returned in Hr. destruct Hr as (pos0 & Hp & Hr).
    inversion Hr; subst. auto.
  - apply Nat.eqb_neq in Hone. right. split; [exact Hone|].
    destruct (unknowns L) as [xx|e]; [|discriminate].
    injection Hs as Hw Hr. unfold extract_positions in Hr.
    apply bind_returned in Hr. destruct Hr as (minx & Hmin & Hr).
    apply bind_returned in Hr. destruct Hr as (maxx & Hmax & Hr).
    apply bind_returned in Hr. destruct Hr as (pos0 & Hp & Hr).
    inversion Hr; subst. exists xx, minx, maxx. cbv zeta. auto 10.
Qed.

Lemma node_index_same L cnode_map n1 n2 c :
  Dict.get (cnodes L) n1 = Some c ->
  Dict.get (cnodes L) n2 = Some c ->
  node_index L cnode_map n1 = node_index L cnode_map n2.
Proof.
  intros H1 H2. unfold node_index. rewrite H1, H2. reflexivity.
Qed.

Lemma placed_same L (coord : nat -> result Q) cnode_map pos n1 n2 c :
  place coord L cnode_map (cnodes L) [] = Returned pos ->
  Dict.get (cnodes L) n1 = Some c ->
  Dict.get (cnodes L) n2 = Some c ->
  exists q, Dict.get pos n1 = Some q /\ Dict.get pos n2 = Some q.
Proof.
  intros Hp H1 H2.
  assert (Hk : forall n, Dict.get (cnodes L) n = Some c -> In n (Dict.keys (cnodes L))).
  { intros n Hn. apply dict_mem_keys, dict_mem_get. eauto. }
  destruct (proj1 (place_spec L coord cnode_map _ _ _ Hp n1) (Hk _ H1))
    as (m1 & q1 & Hm1 & Hq1 & Hg1).
  destruct (proj1 (place_spec L coord cnode_map _ _ _ Hp n2) (Hk _ H2))
    as (m2 & q2 & Hm2 & Hq2 & Hg2).
  rewrite (node_index_same L cnode_map n1 n2 c H1 H2) in Hm1.
  assert (m1 = m2) by congruence. subst m2.
  assert (q1 = q2) by congruence. subst q2.
  exists q1. auto.
Qed.

(** X10: when [solve] returns, two nodes with the same canonical node
    have the same coordinate. *)
Theorem solve_linked_nodes L w pos width n1 n2 c :
  solve L = (w, Returned (pos, width)) ->
  Dict.get (cnodes L) n1 = Some c ->
  Dict.get (cnodes L) n2 = Some c ->
  exists q, Dict.get pos n1 = Some q /\ Dict.get pos n2 = Some q.
Proof.
  intros Hs H1 H2.
  destruct (solve_returned_cases L w pos width Hs)
    as [(_ & _ & _ & Hp)|(_ & xx & minx & maxx & _ & _ & _ & _ & _ & Hp)];
    exact (placed_same L _ _ pos n1 n2 c Hp H1 H2).
Qed.

(** X11: without a node, [solve] raises: the error of [zeros] on a
    negative dimension when no constraint is stretchy, KeyError on the first
    constraint otherwise. *)
Theorem solve_no_nodes (cs : Constraints) :
  solve (mkLineq ([] : @Cnodes Node CNode) cs)
  = ([], Raised (if Nat.eqb (count_stretches cs) 0 then NegativeDimensions
                 else KeyError)).
Proof.
  unfold solve. cbn [cnodes constraints index_cnodes length Nat.eqb].
  unfold solve_unknowns. cbn [constraints Nat.add].
  destruct (Nat.eqb (count_stretches cs) 0) eqn:Hz; [reflexivity|].
  destruct cs as [|[key c] cs]; [discriminate|].
  simpl. destruct (fst key); reflexivity.
Qed.







(** ** Lineq.solve: shapes through the solver *)























(** ** Lineq.solve: two nodes and one constraint *)

Lemma two_nodes_indexed (a b : Node) (ca cb : CNode) :
  ca <> cb ->
  index_cnodes [(a, ca); (b, cb)] [] [] 0 = ([(ca, 0); (cb, 1)], [ca; cb], 2).
Proof.
  intro Hc. unfold index_cnodes, Dict.mem. simpl.
  rewrite !(key_eq_dec_neq ca cb) by assumption. reflexivity.
Qed.

Lemma two_nodes_lookup L (a b : Node) (ca cb : CNode) :
  a <> b -> ca <> cb ->
  cnodes L = [(a, ca); (b, cb)] ->
  let cnode_map := [(ca, 0); (cb, 1)] in
  Dict.get cnode_map ca = Some 0 /\ Dict.get cnode_map cb = Some 1
  /\ node_index L cnode_map a = Returned 0
  /\ node_index L cnode_map b = Returned 1.
Proof.
  intros Hab Hc HL cnode_map. unfold node_index. rewrite HL. simpl.
  rewrite !key_eq_dec_refl, (key_eq_dec_neq a b), (key_eq_dec_neq ca cb) by assumption.
  simpl. rewrite !key_eq_dec_refl, ?(key_eq_dec_neq ca cb) by assumption.
  auto.
Qed.

Lemma solve_one_constraint_forward (a b : Node) (ca cb : CNode) (s : Q) (st : bool) :
  a <> b -> ca <> cb ->
  let m := Qred (1 * s + 0) in
  solve (mkLineq [(a, ca); (b, cb)] [((Canon ca, Canon cb), mkConstraint s st)])
  = ([], Returned ([(a, Qred (0 - m)); (b, Qred (m - m))], Qred (m - m))).
Proof.
  intros Hab Hc m.
  set (L := mkLineq [(a, ca); (b, cb)] [((Canon ca, Canon cb), mkConstraint s st)]).
  destruct (two_nodes_lookup L a b ca cb Hab Hc eq_refl) as (Hga & Hgb & Hna & Hnb).
  assert (Hunk : solve_unknowns L [(ca, 0); (cb, 1)] [ca; cb] 2
                                (count_stretches (constraints L)) = Returned [m]).
  { unfold solve_unknowns, count_stretches, L.
    cbn [constraints fold_left snd stretch].
    destruct st; cbn [build_rows vertex_index fst snd Nat.add Nat.eqb Nat.sub];
      rewrite Hga, Hgb; simpl; reflexivity. }
  unfold solve. cbn [cnodes L]. rewrite (two_nodes_indexed a b ca cb Hc).
  cbn [length Nat.eqb]. fold L. rewrite Hunk.
  unfold negative_stretches, extract_positions.
  cbn [Nat.sub skipn firstn filter map np_min np_max fold_left bind place cnodes L].
  fold L. rewrite Hna, Hnb.
  cbn [bind coordinate Nat.eqb Nat.sub nth_error of_option].
  unfold Dict.set. rewrite (key_eq_dec_neq a b) by assumption.
  reflexivity.
Qed.


Lemma solve_one_constraint_backward (a b : Node) (ca cb : CNode) (s : Q) (st : bool) :
  a <> b -> ca <> cb ->
  let m := Qred (1 * Qred (- s) + 0) in
  solve (mkLineq [(a, ca); (b, cb)] [((Canon cb, Canon ca), mkConstraint s st)])
  = ([], Returned ([(a, Qred (0 - m)); (b, Qred (m - m))], Qred (m - m))).
Proof.
  intros Hab Hc m.
  set (L := mkLineq [(a, ca); (b, cb)] [((Canon cb, Canon ca), mkConstraint s st)]).
  destruct (two_nodes_lookup L a b ca cb Hab Hc eq_refl) as (Hga & Hgb & Hna & Hnb).
  assert (Hunk : solve_unknowns L [(ca, 0); (cb, 1)] [ca; cb] 2
                                (count_stretches (constraints L)) = Returned [m]).
  { unfold solve_unknowns, count_stretches, L.
    cbn [constraints fold_left snd stretch].
    destruct st; cbn [build_rows vertex_index fst snd Nat.add Nat.eqb Nat.sub];
      rewrite Hga, Hgb; simpl; reflexivity. }
  unfold solve. cbn [cnodes L]. rewrite (two_nodes_indexed a b ca cb Hc).
  cbn [length Nat.eqb]. fold L. rewrite Hunk.
  unfold negative_stretches, extract_positions.
  cbn [Nat.sub skipn firstn filter map np_min np_max fold_left bind place cnodes L].
  fold L. rewrite Hna, Hnb.
  cbn [bind coordinate Nat.eqb Nat.sub nth_error of_option].
  unfold Dict.set. rewrite (key_eq_dec_neq a b) by assumption.
  reflexivity.
Qed.

Lemma two_nodes_canonical (a b : Node) (ca cb : CNode) :
  a <> b ->
  let L := mkLineq [(a, ca); (b, cb)] ([] : @Constraints Node CNode) in
  canonical L a = Canon ca /\ canonical L b = Canon cb.
Proof.
  intros Hab L. unfold canonical. simpl.
  rewrite !key_eq_dec_refl, (key_eq_dec_neq a b) by assumption. auto.
Qed.

(** One call on a fresh pair of nodes: the store it leaves. *)
Lemma add_first {Elt : Type} (elt : Elt) (a b : Node) (ca cb : CNode) sz st :
  a <> b -> ~ (sz == 0)%Q ->
  let L := mkLineq [(a, ca); (b, cb)] [] in
  ((0 < sz)%Q ->
   fst (add L elt a b sz st)
   = mkLineq [(a, ca); (b, cb)] [((Canon ca, Canon cb), mkConstraint sz st)]
   /\ fst (add L elt b a sz st)
      = mkLineq [(a, ca); (b, cb)] [((Canon cb, Canon ca), mkConstraint sz st)])
  /\ ((sz < 0)%Q ->
      fst (add L elt a b sz st)
      = mkLineq [(a, ca); (b, cb)] [((Canon cb, Canon ca), mkConstraint (- sz) st)]
      /\ fst (add L elt b a sz st)
         = mkLineq [(a, ca); (b, cb)] [((Canon ca, Canon cb), mkConstraint (- sz) st)]).
Proof.
  intros Hab Hnz L.
  destruct (two_nodes_canonical a b ca cb Hab) as [Ha Hb]. fold L in Ha, Hb.
  split; intro Hs.
  - assert (Ho : forall n1 n2 : Node, orient n1 n2 sz = (n1, n2, sz)).
    { intros n1 n2. unfold orient.
      replace (Qltb sz 0) with false; [reflexivity|].
      symmetry. apply Qltb_ge, Qlt_le_weak. exact Hs. }
    split.
    + rewrite (add_fresh L elt a b sz st a b sz Hnz (Ho a b) eq_refl eq_refl).
      cbn [fst]. rewrite Ha, Hb. reflexivity.
    + rewrite (add_fresh L elt b a sz st b a sz Hnz (Ho b a) eq_refl eq_refl).
      cbn [fst]. rewrite Ha, Hb. reflexivity.
  - assert (Ho : forall n1 n2 : Node, orient n1 n2 sz = (n2, n1, (- sz)%Q)).
    { intros n1 n2. unfold orient.
      replace (Qltb sz 0) with true; [reflexivity|].
      symmetry. apply Qltb_lt. exact Hs. }
    split.
    + rewrite (add_fresh L elt a b sz st b a (- sz)%Q Hnz (Ho a b) eq_refl eq_refl).
      cbn [fst]. rewrite Ha, Hb. reflexivity.
    + rewrite (add_fresh L elt b a sz st a b (- sz)%Q Hnz (Ho b a) eq_refl eq_refl).
      cbn [fst]. rewrite Ha, Hb. reflexivity.
Qed.

(** X15: two unlinked nodes and one constraint of non-zero size [sz],
    fixed or stretchy, positive or negative: [solve] returns without a
    warning, and the node the constraint leads to is placed [sz] after the
    node it leads from, whichever of the two is the reference. *)
Theorem solve_two_nodes_offset {Elt : Type} (elt : Elt) (a b : Node) (ca cb : CNode)
    (sz : Q) (st : bool) :
  a <> b -> ca <> cb -> ~ (sz == 0)%Q ->
  let L := mkLineq [(a, ca); (b, cb)] [] in
  (exists pa pb width,
      solve (fst (add L elt a b sz st)) = ([], Returned ([(a, pa); (b, pb)], width))
      /\ (pb - pa == sz)%Q)
  /\ (exists pa pb width,
         solve (fst (add L elt b a sz st)) = ([], Returned ([(a, pa); (b, pb)], width))
         /\ (pa - pb == sz)%Q).
Proof.
  intros Hab Hc Hnz L.
  destruct (add_first elt a b ca cb sz st Hab Hnz) as [Hpos Hneg]. fold L in Hpos, Hneg.
  destruct (Qlt_le_dec sz 0) as [Hlt|Hge].
  - destruct (Hneg Hlt) as [-> ->]. split.
    + rewrite (solve_one_constraint_backward a b ca cb (- sz) st Hab Hc).
      eexists. eexists. eexists. split; [reflexivity|].
      rewrite !Qred_correct. lra.
    + rewrite (solve_one_constraint_forward a b ca cb (- sz) st Hab Hc).
      eexists. eexists. eexists. split; [reflexivity|].
      rewrite !Qred_correct. lra.
  - assert (Hgt : (0 < sz)%Q).
    { apply Qle_lteq in Hge. destruct Hge as [Hgt|Heq]; [exact Hgt|].
      exfalso. apply Hnz. symmetry. exact Heq. }
    destruct (Hpos Hgt) as [-> ->]. split.
    + rewrite (solve_one_constraint_forward a b ca cb sz st Hab Hc).
      eexists. eexists. eexists. split; [reflexivity|].
      rewrite !Qred_correct. lra.
    + rewrite (solve_one_constraint_backward a b ca cb sz st Hab Hc).
      eexists. eexists. eexists. split; [reflexivity|].
      rewrite !Qred_correct. lra.
Qed.

(** X17: [solve] never warns and then fails: when it raises, it has
    emitted no warning. *)
Theorem solve_raises_silently L e :
  snd (solve L) = Raised e -> fst (solve L) = [].
Proof.
  rewrite solve_eq. cbv zeta.
  destruct (Nat.eqb (num_nodes L) 1) eqn:Hone; [reflexivity|].
  apply Nat.eqb_neq in Hone.
  destruct (unknowns L) as [xx|e'] eqn:Hxx; [|reflexivity].
  assert (Hlen : num_nodes L - 1 <= length xx /\ 0 < num_nodes L).
  { unfold unknowns in Hxx. unfold num_nodes.
    destruct (index_cnodes (cnodes L) [] [] 0) as [[cnode_map cnode_imap] num].
    simpl. split.
    - exact (solve_unknowns_length _ _ _ _ _ _ Hxx).
    - exact (solve_unknowns_nodes _ _ _ _ Hxx). }
  destruct Hlen as [Hlen Hpos].
  destruct (extract_positions_ok L xx) as (pos & width & Hex & _); [lia|exact Hlen|].
  rewrite Hex. discriminate.
Qed.

End SolveLaws.

(** ** Further placements on named nodes *)

Lemma squeezed_known : vertices_known squeezed.
Proof.
  intros key Hin. vm_compute in Hin.
  destruct Hin as [<-|[<-|[<-|[]]]]; split;
    eexists; eexists; (split; [reflexivity|]); vm_compute; tauto.
Qed.


Lemma add_frame_witness :
  Dict.get (constraints (fst (add squeezed tt "a"%string "b"%string 9 true)))
           (Canon "a"%string, Canon "c"%string)
  = Dict.get (constraints squeezed) (Canon "a"%string, Canon "c"%string)
  /\ cnodes (fst (add squeezed tt "a"%string "b"%string 9 true)) = cnodes squeezed.
Proof.
  apply (add_frame squeezed tt "a"%string "b"%string 9%Q true).
  - vm_compute. discriminate.
  - vm_compute. discriminate.
Defined.

Lemma vertices_known_after_calls_witness :
  vertices_known (after_calls (new ["a"; "b"]%string) there_and_back).
Proof.
  apply (vertices_known_after_calls (cnodes (new ["a"; "b"]%string)) there_and_back).
  repeat constructor.
Defined.

Lemma system_shape_witness :
  exists W,
    build_rows (fst (fst (index_cnodes (cnodes squeezed) [] [] 0))) (num_nodes squeezed)
               (num_nodes squeezed + count_stretches (constraints squeezed) - 1)
               (constraints squeezed) 0
    = Returned W
    /\ has_shape W (length (constraints squeezed))
                 (num_nodes squeezed + count_stretches (constraints squeezed))
    /\ map (fun row => last row 0%Q) W
       = map (fun kc => size (snd kc)) (constraints squeezed).
Proof.
  apply (system_shape squeezed).
  - exact squeezed_known.
  - vm_compute. lia.
Defined.

Lemma solve_after_unknown_node_witness :
  solve (fst (add (new ["a"; "b"]%string) tt "a"%string "z"%string 1 false))
  = ([], Raised KeyError).
Proof.
  apply (solve_after_unknown_node (new ["a"; "b"]%string) tt "a"%string "z"%string
                                  1%Q false).
  - vm_compute. lia.
  - apply Qeq_decide_false. reflexivity.
  - right. reflexivity.
Defined.

Lemma solve_linked_nodes_witness :
  exists q,
    Dict.get [("a", (-5)%Q); ("a2", (-5)%Q); ("b", 0%Q)]%string "a"%string = Some q
    /\ Dict.get [("a", (-5)%Q); ("a2", (-5)%Q); ("b", 0%Q)]%string "a2"%string = Some q.
Proof.
  apply (solve_linked_nodes
           (fst (add (mkLineq [("a", "A"); ("a2", "A"); ("b", "B")]%string [])
                     tt "a"%string "b"%string 5 false))
           [] _ 0%Q "a"%string "a2"%string "A"%string).
  - vm_compute. reflexivity.
  - reflexivity.
  - reflexivity.
Defined.




Lemma solve_two_nodes_offset_witness :
  (exists pa pb width,
      solve (fst (add (mkLineq [("a", "A"); ("b", "B")]%string []) tt
                      "a"%string "b"%string (-3) true))
      = ([], Returned ([("a"%string, pa); ("b"%string, pb)], width))
      /\ (pb - pa == -3)%Q)
  /\ (exists pa pb width,
         solve (fst (add (mkLineq [("a", "A"); ("b", "B")]%string []) tt
                         "b"%string "a"%string (-3) true))
         = ([], Returned ([("a"%string, pa); ("b"%string, pb)], width))
         /\ (pa - pb == -3)%Q).
Proof.
  apply (solve_two_nodes_offset tt "a"%string "b"%string "A"%string "B"%string
                                (-3)%Q true).
  - discriminate.
  - discriminate.
  - apply Qeq_decide_false. reflexivity.
Defined.

Lemma add_raises_only_incompatible_witness :
  false = false
  /\ ~ (5 == 0)%Q
  /\ exists key ex incoming,
      ((key = (canonical two_nodes "b"%string, canonical two_nodes "a"%string)
        /\ incoming = 5%Q
        /\ (Dict.mem (constraints two_nodes)
                     (canonical two_nodes "a"%string, canonical two_nodes "b"%string)
            = false
            \/ (5 < 0)%Q))
       \/ (key = (canonical two_nodes "a"%string, canonical two_nodes "b"%string)
           /\ incoming = (- (5))%Q
           /\ (Dict.mem (constraints two_nodes)
                        (canonical two_nodes "b"%string, canonical two_nodes "a"%string)
               = false
               \/ (0 < 5)%Q)))
      /\ Dict.get (constraints two_nodes) key = Some ex
      /\ stretch ex = false
      /\ ~ (size ex == incoming)%Q
      /\ (IncompatibleFixed (- (5)) 5 : exn string)
         = IncompatibleFixed incoming (size ex).
Proof.
  apply (add_raises_only_incompatible two_nodes tt "b"%string "a"%string 5%Q false
                                      (IncompatibleFixed (- (5)) 5 : exn string)).
  vm_compute. reflexivity.
Defined.

Lemma solve_raises_silently_witness :
  fst (solve isolated_node) = [].
Proof.
  apply (solve_raises_silently isolated_node IndexError).
  vm_compute. reflexivity.
Defined.
